(** * DIAMOnD-style greedy module expansion (scripts/script.py)

    A shallow embedding of [diamond] and of the pieces of networkx and
    scipy it calls, followed by the properties of the expansion loop. *)

From Stdlib Require Import ZArith QArith Qminmax Lia Lqa.
From stdpp Require Import gmap strings sorting.

Local Close Scope Q_scope.
Local Open Scope Z_scope.

(** ** Graph model: the part of [networkx.Graph] the script uses *)

(** A [networkx.Graph] keeps a dict [_adj] from node to the dict of its
    neighbours; only the keys matter here.  Nodes are strings. *)
Record Graph := MkGraph { adj : gmap string (gset string) }.

(** [G.nodes()] *)
Definition nodes (G : Graph) : gset string := dom (adj G).

(** [G.neighbors(n)], for [n] a node of [G]. *)
Definition nx_neighbors (G : Graph) (n : string) : gset string :=
  default ∅ (adj G !! n).

(** [G.degree(n)]: the number of neighbours, a self-loop counting twice. *)
Definition nx_degree (G : Graph) (n : string) : Z :=
  Z.of_nat (size (nx_neighbors G n))
  + (if decide (n ∈ nx_neighbors G n) then 1 else 0).

(** [G.add_edge(u, v)]: both end points become nodes and neighbours of each
    other. *)
Definition add_edge (u v : string) (G : Graph) : Graph :=
  let a1 := <[u := {[v]} ∪ nx_neighbors G u]> (adj G) in
  MkGraph (<[v := {[u]} ∪ default ∅ (a1 !! v)]> a1).

Definition empty_graph : Graph := MkGraph ∅.

(** What networkx maintains: neighbours are nodes, adjacency is symmetric. *)
Definition graph_wf (G : Graph) : Prop :=
  ∀ u v, v ∈ nx_neighbors G u → v ∈ nodes G ∧ u ∈ nx_neighbors G v.

(** No self-loops (the "simple graph" of the specification). *)
Definition loop_free (G : Graph) : Prop := ∀ u, u ∉ nx_neighbors G u.

(** [u] and [v] are joined by an edge. *)
Definition edge (G : Graph) (u v : string) : Prop := v ∈ nx_neighbors G u.

(** ** Enumeration order of a Python [set]

    [for node in candidates] visits the elements of a set in an order the
    language does not fix.  An [enumeration] is any way to list every finite
    set without repetition. *)
Record enumeration := MkEnum {
  enum :> gset string → list string;
  enum_perm : ∀ S, enum S ≡ₚ elements S
}.

(** Two enumerations: stdpp's own order of [elements], and its reverse. *)
Definition enum_elements : enumeration :=
  MkEnum elements (λ S, reflexivity (elements S)).

Definition enum_reversed : enumeration :=
  MkEnum (λ S, reverse (elements S)) (λ S, reverse_Permutation (elements S)).

(** ** The scorer's values *)

(** What [hypergeom.sf] returns: a double, which is a rational or NaN. *)
Inductive pvalue := PVal (q : Q) | PNaN.

(** [pval < best_p] on floats: false as soon as NaN is involved. *)
Definition pv_lt (p best : pvalue) : bool :=
  match p, best with
  | PVal q, PVal b => if Qlt_le_dec q b then true else false
  | _, _ => false
  end.

(** ** The expansion engine *)

(** The messages [diamond] prints, in order. *)
Inductive event :=
| WarnMissingSeeds (missing : list string)
| ErrNoSeeds
| InfoNetwork (N : Z) (nseeds : nat)
| MsgNoMoreCandidates
| MsgNoNodeSelected
| MsgAdded (node : string) (p : pvalue) (total : nat) (X : Z).

(** How a call ends: the early [return []], the loop guard turning false, or
    one of the two [break]s. *)
Inductive exit_reason :=
| EmptySeedSet
| TargetReached
| NoCandidates
| NoScorableCandidate.

Record result := MkResult {
  r_added : list string;
  r_log : list event;
  r_exit : exit_reason
}.

(** What one pass through the body of the [while] loop does. *)
Inductive outcome :=
| Selected (node : string) (p : pvalue)
| BreakNoCandidates
| BreakNoneSelected.

(** [sorted(missing)]: Python orders strings by code point. *)
Definition str_le (a b : string) : Prop := Is_true (String.leb a b).

#[global] Instance str_le_dec : RelDecision str_le :=
  λ a b, Is_true_dec (String.leb a b).

Definition sorted_strings (S : gset string) : list string :=
  merge_sort str_le (elements S).

(** [print(...)] when [verbose]. *)
Definition say (verbose : bool) (e : event) : list event :=
  if verbose then [e] else [].

Section Engine.
(** [hypergeom.sf(x, M, n, N)]; [None] stands for a raised exception. *)
Variable sf : Z → Z → Z → Z → option pvalue.
(** The order in which [for node in candidates] visits the set. *)
Variable E : enumeration.

Variable G : Graph.
Variable X : Z.
Variable alpha : Z.
Variable verbose : bool.

(** [N = len(nodes)] *)
Definition population : Z := Z.of_nat (size (nodes G)).

(** [neighbors = {n: set(G.neighbors(n)) for n in nodes}] *)
Definition neighbors : gmap string (gset string) :=
  set_to_map (λ n, (n, nx_neighbors G n)) (nodes G).

(** [degrees = {n: G.degree(n) for n in nodes}] *)
Definition degrees : gmap string Z :=
  set_to_map (λ n, (n, nx_degree G n)) (nodes G).

(** Lines 125-129: [s = int(alpha * len(cluster))], replaced by
    [len(cluster)] below 1 and capped at [N]. *)
Definition effective_s (cluster : gset string) : Z :=
  let s := alpha * Z.of_nat (size cluster) in
  let s := if s <? 1 then Z.of_nat (size cluster) else s in
  if population <? s then population else s.

(** [kb = sum(1 for nb in neighbors.get(node, ()) if nb in cluster)] *)
Definition kb_of (cluster : gset string) (node : string) : Z :=
  Z.of_nat (size (filter (λ nb, nb ∈ cluster) (default ∅ (neighbors !! node)))).

(** Lines 146-150: the call of the scorer under [try]. *)
Definition pval_of (s k kb : Z) : pvalue :=
  match sf (kb - 1) population s k with
  | Some p => p
  | None => PVal 1
  end.

(** Lines 139-150 of the body of [for node in candidates]: [None] when the
    candidate is skipped by [continue], else its p-value. *)
Definition score_candidate (cluster : gset string) (node : string)
  : option pvalue :=
  let k := default 0 (degrees !! node) in
  if k =? 0 then None
  else Some (pval_of (effective_s cluster) k (kb_of cluster node)).

(** Lines 152-154, on the pair [(best_node, best_p)]. *)
Definition consider (cluster : gset string)
    (best : option string * pvalue) (node : string) : option string * pvalue :=
  match score_candidate cluster node with
  | None => best
  | Some pval => if pv_lt pval best.2 then (Some node, pval) else best
  end.

(** Lines 122-158: one iteration, up to the choice of [best_node]. *)
Definition iteration (cluster : gset string) : outcome :=
  let candidates := nodes G ∖ cluster in
  if decide (candidates = ∅) then BreakNoCandidates
  else
    match foldl (consider cluster) (None, PVal 1) (E candidates) with
    | (None, _) => BreakNoneSelected
    | (Some best_node, best_p) => Selected best_node best_p
    end.

(** Lines 121-165: the [while] loop; [fuel] bounds the number of passes. *)
Fixpoint main_loop (fuel : nat) (cluster : gset string)
    (added : list string) (log : list event) : option result :=
  if Z.of_nat (length added) <? X then
    match fuel with
    | O => None
    | S fuel' =>
        match iteration cluster with
        | BreakNoCandidates =>
            Some (MkResult added (log ++ say verbose MsgNoMoreCandidates)
                    NoCandidates)
        | BreakNoneSelected =>
            Some (MkResult added (log ++ say verbose MsgNoNodeSelected)
                    NoScorableCandidate)
        | Selected best_node best_p =>
            main_loop fuel' ({[best_node]} ∪ cluster) (added ++ [best_node])
              (log ++ say verbose
                 (MsgAdded best_node best_p (S (length added)) X))
        end
    end
  else Some (MkResult added log TargetReached).

(** [seeds_present = set(s for s in seeds if s in G)] *)
Definition seeds_present (seeds : gset string) : gset string :=
  filter (λ s, s ∈ nodes G) seeds.

(** Lines 98-119, then the loop. *)
Definition diamond_fuel (fuel : nat) (seeds : gset string) : option result :=
  let present := seeds_present seeds in
  let missing := seeds ∖ present in
  let warn := if decide (missing = ∅) then []
              else [WarnMissingSeeds (sorted_strings missing)] in
  if decide (present = ∅) then
    Some (MkResult [] (warn ++ [ErrNoSeeds]) EmptySeedSet)
  else
    main_loop fuel present []
      (warn ++ say verbose (InfoNetwork population (size present))).

(** Every pass that does not leave the loop appends to [added], so [X]
    passes are enough; see [diamond_returns]. *)
Definition diamond (seeds : gset string) : option result :=
  diamond_fuel (Z.to_nat X) seeds.
End Engine.

(** ** The hypergeometric survival function, in exact arithmetic

    [scipy.stats.hypergeom.sf(x, M, n, N)] with [M] the population size,
    [n] the number of success states and [N] the number of draws.  The
    model follows [rv_discrete.sf] and [hypergeom_gen] with the rounding of
    doubles left out: every value is the exact rational. *)

Fixpoint binom (n k : nat) : nat :=
  match n, k with
  | _, O => 1
  | O, S _ => 0
  | S n', S k' => binom n' k' + binom n' k
  end.

(** The sum of [f i] for [lo <= i <= hi]. *)
Definition Qsum (f : nat → Q) (lo hi : nat) : Q :=
  foldr Qplus 0%Q (f <$> seq lo (S hi - lo)).

(** [hypergeom.pmf(i, M, n, N)] for [0 <= i <= N]. *)
Definition hypergeom_pmf (M n N i : nat) : Q :=
  (inject_Z (Z.of_nat (binom n i * binom (M - n) (N - i)))
   / inject_Z (Z.of_nat (binom M N)))%Q.

(** [np.clip(v, 0, 1)] *)
Definition clip01 (v : Q) : Q := Qmax 0 (Qmin 1 v).

(** [hypergeom_gen._argcheck] *)
Definition hypergeom_argcheck (M n N : Z) : bool :=
  (0 <? M) && (0 <=? n) && (0 <=? N) && (n <=? M) && (N <=? M).

(** [rv_discrete.sf]: NaN for invalid parameters, 1 below the support
    [[max(N-(M-n),0), min(n,N)]], 0 from its upper end on, and in between
    the sum of the probability mass over [x+1 .. N]. *)
Definition hypergeom_sf (x M n N : Z) : option pvalue :=
  if hypergeom_argcheck M n N then
    let a := Z.max (N - (M - n)) 0 in
    let b := Z.min n N in
    if x <? a then Some (PVal 1)
    else if x <? b then
      Some (PVal (clip01 (Qsum (hypergeom_pmf (Z.to_nat M) (Z.to_nat n) (Z.to_nat N))
                            (Z.to_nat (x + 1)) (Z.to_nat N))))
    else Some (PVal 0)
  else Some PNaN.

(** The sum [hypergeom_sf] takes inside the support, in exact arithmetic. *)
Definition exact_inner (x M n N : Z) : Q :=
  Qsum (hypergeom_pmf (Z.to_nat M) (Z.to_nat n) (Z.to_nat N))
       (Z.to_nat (x + 1)) (Z.to_nat N).

(** [hypergeom.sf] as the program has it, in doubles.  Only the value inside
    the support comes out of floating-point arithmetic; [inner x M n N]
    stands for that double, whatever its rounding.  The parameter check, the
    comparisons with the support and the constants 1.0, 0.0 and NaN are
    exact.  [hypergeom_sf] above is the instance with the exact sum. *)
Definition hypergeom_sf_rounded (inner : Z → Z → Z → Z → Q) (x M n N : Z)
  : option pvalue :=
  if hypergeom_argcheck M n N then
    let a := Z.max (N - (M - n)) 0 in
    let b := Z.min n N in
    if x <? a then Some (PVal 1)
    else if x <? b then Some (PVal (clip01 (inner x M n N)))
    else Some (PVal 0)
  else Some PNaN.


(** ** The loop as a step relation

    A state is [(cluster, added)]; a step is one full pass of the [while]
    body that ends in [added.append(best_node); cluster.add(best_node)]. *)
Inductive loop_step (sf : Z → Z → Z → Z → option pvalue) (E : enumeration)
    (G : Graph) (X alpha : Z)
  : gset string * list string → gset string * list string → Prop :=
| loop_step_select cluster added n p :
    Z.of_nat (length added) < X →
    iteration sf E G alpha cluster = Selected n p →
    loop_step sf E G X alpha (cluster, added) ({[n]} ∪ cluster, added ++ [n]).

(** The states a call passes through, from the state before the loop. *)
Definition reachable sf E G X alpha (seeds : gset string)
    (st : gset string * list string) : Prop :=
  rtc (loop_step sf E G X alpha) (seeds_present G seeds, []) st.

(** The numerators of the probability mass, summed from [lo] to [N]:
    the number of ways to draw [N] out of [n + m] with at least [lo] of the
    [n] marked ones. *)
Definition tail_count (n m N lo : nat) : nat :=
  sum_list ((λ i, binom n i * binom m (N - i))%nat <$> seq lo (S N - lo)).

(** The quotient of two counts, as a rational. *)
Definition ratio (t c : nat) : Q :=
  (inject_Z (Z.of_nat t) / inject_Z (Z.of_nat c))%Q.

(** What holds of every state of a run started from the seeds [present]. *)
Definition loop_inv (G : Graph) (present : gset string)
    (st : gset string * list string) : Prop :=
  st.1 = present ∪ list_to_set st.2
  ∧ NoDup st.2
  ∧ ∀ n, n ∈ st.2 → n ∈ nodes G ∧ (n ∉ present) ∧ nx_degree G n ≠ 0.

(** How the loop was left, read on the state it was left in. *)
Definition exit_ok sf (E : enumeration) (G : Graph) (X alpha : Z)
    (r : result) (cluster : gset string) : Prop :=
  match r_exit r with
  | EmptySeedSet => False
  | TargetReached => X ≤ Z.of_nat (length (r_added r))
  | NoCandidates =>
      Z.of_nat (length (r_added r)) < X ∧ nodes G ∖ cluster = ∅
  | NoScorableCandidate =>
      Z.of_nat (length (r_added r)) < X
      ∧ iteration sf E G alpha cluster = BreakNoneSelected
  end.

(** ** Three small graphs *)

(** The path A - B - C - D. *)
Definition path4 : Graph :=
  add_edge "C" "D" (add_edge "B" "C" (add_edge "A" "B" empty_graph)).


(** B - A - C: two leaves on one centre. *)
Definition fork : Graph := add_edge "A" "C" (add_edge "A" "B" empty_graph).


(** [clamp(v, lo, hi)] of the specification. *)
Definition clamp (v lo hi : Z) : Z := Z.max lo (Z.min v hi).

(** Every node has a neighbour. *)
Definition no_isolated (G : Graph) : Prop :=
  ∀ n, n ∈ nodes G → nx_neighbors G n ≠ ∅.

(** The node a message reports as added, if it is such a message. *)
Definition added_node (e : event) : option string :=
  match e with
  | MsgAdded node _ _ _ => Some node
  | _ => None
  end.

(** * The readers and [main]

    [read_seeds], the row loop of [read_network] and the data [main] passes
    from one to the other.  Opening files, the csv module's choice of a
    delimiter and [argparse] are outside the model: a file is the list of
    its lines, the network file the list of rows its reader yields. *)

(** ** String methods *)

From Stdlib Require Import Ascii.

Section Text.
(** [str.isspace] on one character. *)
Variable isspace : Ascii.ascii → bool.

(** [s.lstrip()] *)
Fixpoint py_lstrip (s : string) : string :=
  match s with
  | EmptyString => EmptyString
  | String c s' => if isspace c then py_lstrip s' else s
  end.

(** [s.rstrip()] *)
Fixpoint py_rstrip (s : string) : string :=
  match s with
  | EmptyString => EmptyString
  | String c s' =>
      match py_rstrip s' with
      | EmptyString => if isspace c then EmptyString else String c EmptyString
      | r => String c r
      end
  end.

(** [s.strip()] *)
Definition py_strip (s : string) : string := py_rstrip (py_lstrip s).

(** [s.split()]: the maximal runs of characters that are not whitespace;
    [cur] is the run being read. *)
Fixpoint py_split_go (cur : string) (s : string) : list string :=
  match s with
  | EmptyString => match cur with EmptyString => [] | _ => [cur] end
  | String c s' =>
      if isspace c then
        match cur with
        | EmptyString => py_split_go EmptyString s'
        | _ => cur :: py_split_go EmptyString s'
        end
      else py_split_go (cur +:+ String c EmptyString) s'
  end.

Definition py_split (s : string) : list string := py_split_go EmptyString s.

(** [s.replace(old, new)] for one-character [old] and [new]. *)
Fixpoint py_replace (old new : Ascii.ascii) (s : string) : string :=
  match s with
  | EmptyString => EmptyString
  | String c s' =>
      String (if Ascii.eqb c old then new else c) (py_replace old new s')
  end.

(** Every character of [s] satisfies [P]. *)
Fixpoint str_all (P : Ascii.ascii → bool) (s : string) : bool :=
  match s with
  | EmptyString => true
  | String c s' => P c && str_all P s'
  end.

(** A non-empty string without whitespace and without commas. *)
Definition is_token (s : string) : Prop :=
  s ≠ EmptyString
  ∧ str_all (λ c, negb (isspace c) && negb (Ascii.eqb c ","%char)) s = true.

(** ** [read_seeds] *)

Definition default_seeds : gset string := {["ENO1"; "PGK1"; "HK2"]}.

(** Lines 76-82: the body of [for line in f], on the set [seeds]. *)
Definition read_seeds_line (seeds : gset string) (line : string)
  : gset string :=
  match py_strip line with
  | EmptyString => seeds
  | line =>
      let parts := py_strip <$> py_split (py_replace ","%char "010"%char line) in
      foldl (λ seeds p, match p with
                        | EmptyString => seeds
                        | _ => {[p]} ∪ seeds
                        end) seeds parts
  end.

(** Lines 70-83; [None] is a call without a path, [Some lines] a file. *)
Definition read_seeds (file : option (list string)) : gset string :=
  match file with
  | None => default_seeds
  | Some lines =>
      let seeds := foldl read_seeds_line ∅ lines in
      if decide (seeds = ∅) then default_seeds else seeds
  end.

(** ** [read_network] *)

(** [str.lower] *)
Variable py_lower : string → string.
(** [float(row[2])], [None] for [ValueError]; and
    [score >= score_threshold] on its result. *)
Variable score : Type.
Variable py_float : string → option score.
Variable ge_threshold : score → bool.

Definition header_first : list string :=
  ["protein1"; "node1"; "gene"; "protein"].
Definition header_second : list string :=
  ["protein2"; "node2"; "gene"; "protein"].

(** Lines 40-60: the body of [for row in reader].  The cells of a row are
    strings, so the filter [c is not None] keeps all of them. *)
Definition read_network_row (G : Graph) (row : list string) : Graph :=
  match py_strip <$> row with
  | [] | [_] => G
  | node1 :: node2 :: rest =>
      if bool_decide (py_lower node1 ∈ header_first)
         || bool_decide (py_lower node2 ∈ header_second)
      then G
      else
        match rest with
        | [] => add_edge node1 node2 G
        | third :: _ =>
            match py_float third with
            | Some sc => if ge_threshold sc then add_edge node1 node2 G else G
            | None => add_edge node1 node2 G
            end
        end
  end.

(** Lines 24 and 39-61, on the rows the reader yields. *)
Definition read_network (rows : list (list string)) : Graph :=
  foldl read_network_row empty_graph rows.

(** The reader of line 38 when no delimiter was found:
    [(line.split() for line in f)]. *)
Definition split_reader (lines : list string) : list (list string) :=
  py_split <$> lines.

(** ** [main] *)

End Text.

(** [float] on the strings of decimal digits, and [ValueError] elsewhere:
    enough of [float] for the examples below. *)
Fixpoint digits_value (acc : Z) (s : string) : option Z :=
  match s with
  | EmptyString => Some acc
  | String c s' =>
      let n := Ascii.nat_of_ascii c in
      if ((48 <=? n) && (n <=? 57))%nat
      then digits_value (10 * acc + Z.of_nat (n - 48)) s'
      else None
  end.

Definition digits_float (s : string) : option Z :=
  match s with
  | EmptyString => None
  | _ => digits_value 0 s
  end.

(** What separates two seeds in a seed file: whitespace or a comma. *)
Definition is_sep (isspace : Ascii.ascii → bool) (c : Ascii.ascii) : bool :=
  isspace c || Ascii.eqb c ","%char.

(** [str.isspace] for the characters below 256. *)
Definition py_isspace (c : Ascii.ascii) : bool :=
  let n := Ascii.nat_of_ascii c in
  ((9 <=? n) && (n <=? 13) || (28 <=? n) && (n <=? 32)
   || (n =? 133) || (n =? 160))%nat.

(** [str.lower] for strings of ASCII characters. *)
Fixpoint ascii_lower (s : string) : string :=
  match s with
  | EmptyString => EmptyString
  | String c s' =>
      let n := Ascii.nat_of_ascii c in
      String (if (65 <=? n) && (n <=? 90) then Ascii.ascii_of_nat (n + 32) else c)%nat
             (ascii_lower s')
  end.

(** * Properties *)

(** ** What [add_edge] maintains *)

Lemma nx_neighbors_add_edge u v G w x :
  x ∈ nx_neighbors (add_edge u v G) w
  ↔ x ∈ nx_neighbors G w ∨ (w = u ∧ x = v) ∨ (w = v ∧ x = u).
Proof.
  unfold add_edge, nx_neighbors. simpl.
  destruct (decide (w = v)) as [->|Hwv].
  - rewrite lookup_insert_eq. simpl.
    destruct (decide (v = u)) as [->|Hvu].
    + rewrite lookup_insert_eq. simpl. set_solver.
    + rewrite lookup_insert_ne by done. set_solver.
  - rewrite lookup_insert_ne by done.
    destruct (decide (w = u)) as [->|Hwu].
    + rewrite lookup_insert_eq. simpl. set_solver.
    + rewrite lookup_insert_ne by done. set_solver.
Qed.

Lemma nodes_add_edge u v G : nodes (add_edge u v G) = {[u; v]} ∪ nodes G.
Proof. unfold nodes, add_edge. simpl. rewrite !dom_insert_L. set_solver. Qed.

Lemma nx_neighbors_empty n : nx_neighbors empty_graph n = ∅.
Proof. unfold nx_neighbors, empty_graph. simpl. by rewrite lookup_empty. Qed.

Lemma graph_wf_empty : graph_wf empty_graph.
Proof. intros u v. rewrite nx_neighbors_empty. set_solver. Qed.

Lemma graph_wf_add_edge u v G : graph_wf G → graph_wf (add_edge u v G).
Proof.
  intros Hwf a b. rewrite !nx_neighbors_add_edge, nodes_add_edge.
  intros [Hab|[[-> ->]|[-> ->]]]; [|set_solver..].
  destruct (Hwf _ _ Hab). set_solver.
Qed.

Lemma loop_free_empty : loop_free empty_graph.
Proof. intros u. rewrite nx_neighbors_empty. set_solver. Qed.

Lemma loop_free_add_edge u v G :
  u ≠ v → loop_free G → loop_free (add_edge u v G).
Proof.
  intros Huv Hlf a. rewrite nx_neighbors_add_edge.
  intros [Ha|[[-> ->]|[-> ->]]]; [by apply (Hlf a)|done..].
Qed.

Section EngineFacts.
Variable sf : Z → Z → Z → Z → option pvalue.
Variable E : enumeration.
Variable G : Graph.
Variable X : Z.
Variable alpha : Z.
Variable verbose : bool.

Local Abbreviation sc := (score_candidate sf G alpha).
Local Abbreviation step := (loop_step sf E G X alpha).
Local Abbreviation loop := (main_loop sf E G X alpha verbose).
Local Abbreviation exit_ok := (exit_ok sf E G X alpha).

(** *** The precomputed dictionaries *)

Lemma neighbors_lookup n :
  n ∈ nodes G → neighbors G !! n = Some (nx_neighbors G n).
Proof.
  intros Hn. unfold neighbors. apply lookup_set_to_map; [naive_solver|].
  exists n. done.
Qed.

Lemma degrees_lookup n :
  n ∈ nodes G → degrees G !! n = Some (nx_degree G n).
Proof.
  intros Hn. unfold degrees. apply lookup_set_to_map; [naive_solver|].
  exists n. done.
Qed.

Lemma degrees_lookup_None n : n ∉ nodes G → degrees G !! n = None.
Proof.
  intros Hn. unfold degrees. apply eq_None_not_Some. intros [k Hk].
  apply lookup_set_to_map in Hk; [|naive_solver].
  destruct Hk as (y & Hy & Heq). by simplify_eq.
Qed.

Lemma score_candidate_Some cluster n pv :
  sc cluster n = Some pv →
  n ∈ nodes G ∧ nx_degree G n ≠ 0
  ∧ pv = pval_of sf G (effective_s G alpha cluster) (nx_degree G n)
           (kb_of G cluster n).
Proof.
  unfold score_candidate. destruct (decide (n ∈ nodes G)) as [Hn|Hn].
  - rewrite (degrees_lookup _ Hn). simpl.
    destruct (Z.eqb_spec (nx_degree G n) 0); [done|]. by intros [= <-].
  - rewrite (degrees_lookup_None _ Hn). simpl. done.
Qed.

Lemma score_candidate_degree_0 cluster n :
  nx_degree G n = 0 → sc cluster n = None.
Proof.
  intros Hk. destruct (sc cluster n) as [pv|] eqn:Hsc; [|done].
  apply score_candidate_Some in Hsc. naive_solver.
Qed.

(** *** Choosing the best candidate: the first strict minimum *)

Lemma consider_cases cluster best p0 x :
  consider sf G alpha cluster (best, PVal p0) x = (best, PVal p0)
    ∧ (∀ q, sc cluster x = Some (PVal q) → (p0 <= q)%Q)
  ∨ ∃ q, consider sf G alpha cluster (best, PVal p0) x = (Some x, PVal q)
         ∧ sc cluster x = Some (PVal q) ∧ (q < p0)%Q.
Proof.
  unfold consider. destruct (sc cluster x) as [[q|]|] eqn:Hsc; simpl.
  - destruct (Qlt_le_dec q p0) as [Hlt|Hle].
    + right. by exists q.
    + left. split; [done|]. by intros ? [= <-].
  - left. done.
  - left. done.
Qed.

Lemma consider_fold cluster l : ∀ best0 p0 best pv,
  foldl (consider sf G alpha cluster) (best0, PVal p0) l = (best, pv) →
  (best = best0 ∧ pv = PVal p0
     ∧ ∀ m q, m ∈ l → sc cluster m = Some (PVal q) → (p0 <= q)%Q)
  ∨ ∃ l1 n l2 p,
      l = l1 ++ n :: l2 ∧ best = Some n ∧ pv = PVal p
      ∧ sc cluster n = Some (PVal p) ∧ (p < p0)%Q
      ∧ (∀ m q, m ∈ l1 → sc cluster m = Some (PVal q) → (p < q)%Q)
      ∧ (∀ m q, m ∈ l2 → sc cluster m = Some (PVal q) → (p <= q)%Q).
Proof.
  induction l as [|x l IH]; intros best0 p0 best pv; simpl.
  - intros [= <- <-]. left. split_and!; [done..|]. by intros ?? ?%elem_of_nil.
  - destruct (consider_cases cluster best0 p0 x) as [[-> Hx]|(qx & -> & Hx & Hlt)];
      intros Hf; apply IH in Hf
      as [(-> & -> & Hall)|(l1 & n & l2 & p & -> & -> & -> & Hn & Hlt' & H1 & H2)].
    + left. split_and!; [done..|]. intros m q [->|Hm]%elem_of_cons; eauto.
    + right. exists (x :: l1), n, l2, p. split_and!; try done.
      intros m q [->|Hm]%elem_of_cons Hm'; [|by eauto].
      apply Hx in Hm'. lra.
    + right. exists [], x, l, qx. split_and!; try done.
      by intros ?? ?%elem_of_nil.
    + right. exists (x :: l1), n, l2, p. split_and!; try done; [lra|].
      intros m q [->|Hm]%elem_of_cons Hm'; [|by eauto].
      rewrite Hx in Hm'. by simplify_eq.
Qed.

(** What [iteration] selects: a candidate, scored, strictly below 1, the
    first in enumeration order among the candidates of least p-value. *)
Lemma iteration_Selected cluster n pv :
  iteration sf E G alpha cluster = Selected n pv →
  n ∈ nodes G ∧ (n ∉ cluster) ∧ sc cluster n = Some pv
  ∧ ∃ p l1 l2, pv = PVal p ∧ (p < 1)%Q
      ∧ E (nodes G ∖ cluster) = l1 ++ n :: l2
      ∧ (∀ m q, m ∈ l1 → sc cluster m = Some (PVal q) → (p < q)%Q)
      ∧ (∀ m q, m ∈ l2 → sc cluster m = Some (PVal q) → (p <= q)%Q).
Proof.
  unfold iteration. case_decide as Hc; [done|].
  destruct (foldl _ _ _) as [[b|] q] eqn:Hf; [|done].
  intros [= -> ->].
  apply consider_fold in Hf
    as [(? & _)|(l1 & n' & l2 & p & Hl & [= <-] & -> & Hn & Hlt & H1 & H2)];
    [done|].
  assert (n ∈ nodes G ∖ cluster) as Hin.
  { apply elem_of_elements. rewrite <- (enum_perm E), Hl. set_solver. }
  split_and!; [set_solver|set_solver|done|]. by exists p, l1, l2.
Qed.

Lemma iteration_BreakNoCandidates cluster :
  iteration sf E G alpha cluster = BreakNoCandidates ↔ nodes G ∖ cluster = ∅.
Proof.
  unfold iteration. case_decide; [done|].
  destruct (foldl _ _ _) as [[b|] q]; naive_solver.
Qed.


(** *** Steps and invariants *)

Lemma loop_step_inv st st' :
  step st st' →
  ∃ n p, Z.of_nat (length st.2) < X
    ∧ iteration sf E G alpha st.1 = Selected n p
    ∧ n ∈ nodes G ∧ (n ∉ st.1) ∧ nx_degree G n ≠ 0
    ∧ st' = ({[n]} ∪ st.1, st.2 ++ [n]).
Proof.
  intros [cluster added n p HX Hit]. simpl.
  destruct (iteration_Selected _ _ _ Hit) as (Hn & Hnc & Hsc & _).
  apply score_candidate_Some in Hsc as (_ & Hk & _).
  by exists n, p.
Qed.

Lemma loop_inv_step present st st' :
  loop_inv G present st → step st st' → loop_inv G present st'.
Proof.
  intros (Hc & Hnd & Hall) (n & p & _ & _ & Hn & Hnc & Hk & ->)%loop_step_inv.
  destruct st as [c a]; simpl in *. subst c.
  split_and!; simpl.
  - rewrite list_to_set_app_L. set_solver.
  - apply NoDup_app. split_and!; [done| |apply NoDup_singleton].
    intros m Hm ->%list_elem_of_singleton. set_solver.
  - intros m [Hm| ->%list_elem_of_singleton]%elem_of_app; [by auto|].
    set_solver.
Qed.

Lemma loop_inv_rtc present st st' :
  loop_inv G present st → rtc step st st' → loop_inv G present st'.
Proof. intros Hinv Hrtc. induction Hrtc; eauto using loop_inv_step. Qed.

Lemma loop_inv_init present : loop_inv G present (present, []).
Proof.
  split_and!; simpl; [set_solver|constructor|]. by intros ? ?%elem_of_nil.
Qed.

Lemma reachable_inv seeds st :
  reachable sf E G X alpha seeds st → loop_inv G (seeds_present G seeds) st.
Proof. apply loop_inv_rtc, loop_inv_init. Qed.

Lemma loop_inv_size present st :
  loop_inv G present st →
  size st.1 = (size present + length st.2)%nat
  ∧ (length st.2 ≤ size (nodes G ∖ present))%nat.
Proof.
  intros (Hc & Hnd & Hall).
  assert (size (list_to_set st.2 : gset string) = length st.2) as Hsz
    by by apply size_list_to_set.
  split.
  - rewrite Hc, size_union, Hsz; [done|]. set_solver.
  - rewrite <- Hsz. apply subseteq_size. set_solver.
Qed.

Lemma rtc_step_grows st st' :
  rtc step st st' → st.1 ⊆ st'.1 ∧ st.2 `prefix_of` st'.2.
Proof.
  induction 1 as [|st st1 st2 Hs _ [IH1 IH2]]; [done|].
  apply loop_step_inv in Hs as (n & p & _ & _ & _ & _ & _ & ->). simpl in *.
  split; [set_solver|]. etrans; [|done]. by apply prefix_app_r.
Qed.

(** *** The loop function against the step relation *)

Lemma main_loop_run fuel : ∀ cluster added log r,
  loop fuel cluster added log = Some r →
  ∃ cluster', rtc step (cluster, added) (cluster', r_added r)
              ∧ exit_ok r cluster'.
Proof.
  induction fuel as [|fuel IH]; intros cluster added log r; simpl.
  - destruct (Z.ltb_spec (Z.of_nat (length added)) X); [done|].
    intros [= <-]. exists cluster. split; [done|]. unfold exit_ok; simpl. lia.
  - destruct (Z.ltb_spec (Z.of_nat (length added)) X) as [HX|HX].
    + destruct (iteration sf E G alpha cluster) as [n p| |] eqn:Hit.
      * intros (c' & Hrtc & Hex)%IH. exists c'. split; [|done].
        eapply rtc_l; [|done]. by econstructor.
      * intros [= <-]. exists cluster. split; [done|].
        unfold exit_ok; simpl. split; [done|].
        by apply iteration_BreakNoCandidates.
      * intros [= <-]. exists cluster. split; [done|].
        unfold exit_ok; simpl. done.
    + intros [= <-]. exists cluster. split; [done|].
      unfold exit_ok; simpl. lia.
Qed.

Lemma main_loop_enough_fuel fuel : ∀ cluster added log,
  (Nat.min (Z.to_nat (X - Z.of_nat (length added)))
           (S (size (nodes G ∖ cluster))) ≤ fuel)%nat →
  is_Some (loop fuel cluster added log).
Proof.
  induction fuel as [|fuel IH]; intros cluster added log Hf; simpl.
  - destruct (Z.ltb_spec (Z.of_nat (length added)) X); [lia|done].
  - destruct (Z.ltb_spec (Z.of_nat (length added)) X) as [HX|HX]; [|done].
    destruct (iteration sf E G alpha cluster) as [n p| |] eqn:Hit; [|done..].
    apply IH. destruct (iteration_Selected _ _ _ Hit) as (Hn & Hnc & _).
    rewrite length_app; simpl.
    assert (size (nodes G ∖ cluster)
            = S (size (nodes G ∖ ({[n]} ∪ cluster)))) as Hsz.
    { replace (nodes G ∖ cluster)
        with ({[n]} ∪ nodes G ∖ ({[n]} ∪ cluster)).
      - rewrite size_union, size_singleton; [done|set_solver].
      - apply set_eq. intros m. destruct (decide (m = n)); set_solver. }
    lia.
Qed.

Lemma main_loop_more_fuel fuel : ∀ fuel' cluster added log r,
  loop fuel cluster added log = Some r → (fuel ≤ fuel')%nat →
  loop fuel' cluster added log = Some r.
Proof.
  induction fuel as [|fuel IH]; intros fuel' cluster added log r; simpl.
  - destruct (Z.ltb_spec (Z.of_nat (length added)) X) as [HX|HX]; [done|].
    intros <- _. destruct fuel'; simpl; by rewrite (proj2 (Z.ltb_ge _ _) HX).
  - intros Hr Hle. destruct fuel' as [|fuel']; [lia|]. simpl.
    destruct (Z.of_nat (length added) <? X); [|done].
    destruct (iteration sf E G alpha cluster); [|done..].
    apply IH; [done|lia].
Qed.

(** A message printed before the loop stays in front of what the loop
    prints and changes nothing else. *)
Lemma main_loop_log_cons fuel : ∀ cluster added log w r,
  loop fuel cluster added log = Some r →
  loop fuel cluster added (w :: log)
  = Some (MkResult (r_added r) (w :: r_log r) (r_exit r)).
Proof.
  induction fuel as [|fuel IH]; intros c a l w r; simpl.
  - destruct (_ <? _); [done|]. by intros [= <-].
  - destruct (_ <? _); [|by intros [= <-]].
    destruct (iteration _ _ _ _ _); [|by intros [= <-]..].
    apply IH.
Qed.

Lemma seeds_present_inter seeds : seeds_present G seeds = seeds ∩ nodes G.
Proof. clear. unfold seeds_present. set_solver. Qed.

Lemma diamond_fuel_loop fuel seeds :
  seeds_present G seeds ≠ ∅ →
  ∃ log0, diamond_fuel sf E G X alpha verbose fuel seeds
          = loop fuel (seeds_present G seeds) [] log0.
Proof. intros Hne. unfold diamond_fuel. case_decide; [done|]. eauto. Qed.

Lemma diamond_fuel_run fuel seeds r :
  diamond_fuel sf E G X alpha verbose fuel seeds = Some r →
  ∃ cluster', reachable sf E G X alpha seeds (cluster', r_added r)
    ∧ (r_exit r = EmptySeedSet ∧ seeds_present G seeds = ∅ ∧ r_added r = []
       ∨ seeds_present G seeds ≠ ∅ ∧ exit_ok r cluster').
Proof.
  unfold diamond_fuel. case_decide as Hp.
  - intros [= <-]. exists (seeds_present G seeds). simpl.
    split; [apply rtc_refl|]. by left.
  - intros (c' & Hrtc & Hex)%main_loop_run. exists c'. split; [done|].
    by right.
Qed.

(** *** Termination *)

Lemma diamond_fuel_enough fuel seeds :
  (Nat.min (Z.to_nat X) (S (size (nodes G ∖ seeds_present G seeds))) ≤ fuel)%nat →
  is_Some (diamond_fuel sf E G X alpha verbose fuel seeds).
Proof.
  intros Hf. unfold diamond_fuel. case_decide; [done|].
  apply main_loop_enough_fuel. simpl. by rewrite Z.sub_0_r.
Qed.

Lemma diamond_fuel_more fuel fuel' seeds r :
  (fuel ≤ fuel')%nat →
  diamond_fuel sf E G X alpha verbose fuel seeds = Some r →
  diamond_fuel sf E G X alpha verbose fuel' seeds = Some r.
Proof.
  intros Hle. unfold diamond_fuel. case_decide; [done|].
  intros Hr. by eapply main_loop_more_fuel.
Qed.

Lemma diamond_returns seeds :
  is_Some (diamond sf E G X alpha verbose seeds).
Proof. apply diamond_fuel_enough. lia. Qed.

Lemma diamond_fuel_added_bounds fuel seeds r :
  diamond_fuel sf E G X alpha verbose fuel seeds = Some r →
  Z.of_nat (length (r_added r)) ≤ Z.max 0 X
  ∧ (length (r_added r) ≤ size (nodes G ∖ seeds_present G seeds))%nat.
Proof.
  intros (c' & Hreach & Hex)%diamond_fuel_run.
  pose proof (reachable_inv _ _ Hreach) as Hinv.
  apply loop_inv_size in Hinv as [_ Hsz]. simpl in Hsz. split; [|done].
  destruct Hex as [(_ & _ & ->)|[_ Hex]]; [simpl; lia|].
  apply rtc_inv_r in Hreach as [[= _ <-]|(st & _ & Hlast)]; [simpl; lia|].
  apply loop_step_inv in Hlast as (n & p & HX & _ & _ & _ & _ & [= _ ->]).
  rewrite length_app; simpl. lia.
Qed.

(** C10: the loop ends on every input.  Each pass either leaves the loop
    or appends one node to [added]; the number of passes is bounded by [X]
    and by the number of non-seed nodes (plus the pass that leaves), so
    with that much fuel the call returns, and more fuel changes nothing.
    For [X <= 0] nothing is added. *)
Theorem diamond_terminates seeds :
  ∃ r, diamond sf E G X alpha verbose seeds = Some r
    ∧ (∀ fuel,
         (Nat.min (Z.to_nat X)
                  (S (size (nodes G ∖ seeds_present G seeds))) ≤ fuel)%nat →
         diamond_fuel sf E G X alpha verbose fuel seeds = Some r)
    ∧ (X ≤ 0 → r_added r = [] )
    ∧ Z.of_nat (length (r_added r)) ≤ Z.max 0 X
    ∧ (length (r_added r) ≤ size (nodes G ∖ seeds_present G seeds))%nat
    ∧ (∀ st st', step st st' →
         Z.of_nat (length st.2) < X ∧ length st'.2 = S (length st.2)).
Proof.
  destruct (diamond_returns seeds) as [r Hr]. exists r.
  destruct (diamond_fuel_added_bounds _ _ _ Hr) as [Hlen Hsz].
  split_and!; [done| |  |done|done|].
  - intros fuel Hf. destruct (diamond_fuel_enough fuel seeds Hf) as [r' Hr'].
    destruct (Nat.le_ge_cases fuel (Z.to_nat X)) as [Hle|Hle].
    + rewrite Hr'. f_equal. apply (diamond_fuel_more _ _ _ _ Hle) in Hr'.
      unfold diamond in Hr. congruence.
    + by apply (diamond_fuel_more (Z.to_nat X)).
  - intros HX. destruct (r_added r); [done|]. simpl in Hlen. lia.
  - intros st st' (n & p & HX & _ & _ & _ & _ & ->)%loop_step_inv.
    simpl. rewrite length_app; simpl. split; [done|lia].
Qed.

(** *** The cluster *)

(** C6: the loop starts from the seeds present in the graph with nothing
    added; every step adds one node that was not in the cluster, so the
    size grows by exactly one and nothing is ever removed; the cluster is
    always the present seeds plus the added nodes, which are pairwise
    distinct; [added] only grows at its end, earlier entries staying as
    they are.  The list returned is the [added] of a reachable state. *)
Theorem cluster_growth seeds :
  seeds_present G seeds = seeds ∩ nodes G
  ∧ (∀ fuel, seeds_present G seeds ≠ ∅ →
       ∃ log0, diamond_fuel sf E G X alpha verbose fuel seeds
               = loop fuel (seeds_present G seeds) [] log0)
  ∧ (∀ fuel r, diamond_fuel sf E G X alpha verbose fuel seeds = Some r →
       ∃ cluster', reachable sf E G X alpha seeds (cluster', r_added r))
  ∧ ∀ st, reachable sf E G X alpha seeds st →
      st.1 = seeds_present G seeds ∪ list_to_set st.2
      ∧ NoDup st.2
      ∧ size st.1 = (size (seeds_present G seeds) + length st.2)%nat
      ∧ (∀ st', step st st' →
           ∃ n, (n ∉ st.1) ∧ st'.1 = {[n]} ∪ st.1
                ∧ size st'.1 = S (size st.1) ∧ st'.2 = st.2 ++ [n])
      ∧ (∀ st', rtc step st st' →
           st.1 ⊆ st'.1 ∧ (size st.1 ≤ size st'.1)%nat
           ∧ st.2 `prefix_of` st'.2).
Proof.
  split_and!.
  - apply seeds_present_inter.
  - intros fuel. apply diamond_fuel_loop.
  - intros fuel r (c' & Hreach & _)%diamond_fuel_run. by exists c'.
  - intros st Hreach. pose proof (reachable_inv _ _ Hreach) as Hinv.
    destruct (loop_inv_size _ _ Hinv) as [Hsz _].
    destruct Hinv as (Hc & Hnd & _). split_and!; [done..| |].
    + intros st' (n & p & _ & _ & _ & Hnc & _ & ->)%loop_step_inv. simpl.
      exists n. split_and!; [done..| |done].
      rewrite size_union, size_singleton; [done|set_solver].
    + intros st' [Hsub Hpre]%rtc_step_grows. split_and!; [done| |done].
      by apply subseteq_size.
Qed.

(** *** Nodes without edges *)

(** C9: whatever [X] (and the fuel), a node of degree 0 is never in the
    returned list. *)
Theorem zero_degree_never_added fuel seeds r n :
  diamond_fuel sf E G X alpha verbose fuel seeds = Some r →
  n ∈ r_added r → nx_degree G n ≠ 0.
Proof.
  intros (c' & Hreach & _)%diamond_fuel_run Hn.
  apply reachable_inv in Hreach as (_ & _ & Hall). by apply Hall.
Qed.

(** *** The effective cluster size *)

Lemma reachable_cluster seeds st :
  seeds_present G seeds ≠ ∅ → reachable sf E G X alpha seeds st →
  st.1 ≠ ∅ ∧ st.1 ⊆ nodes G.
Proof.
  intros Hne (Hc & _ & Hall)%reachable_inv. rewrite Hc. split.
  - set_solver.
  - pose proof (seeds_present_inter seeds). intros m.
    rewrite elem_of_union, elem_of_list_to_set. intros [Hm|Hm]; [set_solver|].
    by apply Hall.
Qed.

(** C4: in every state the loop reaches, for an integer [alpha >= 1] the
    value of [s] is [alpha * |cluster|] clamped to [[1, N]] (rounding an
    integer changes nothing); and when the product is below 1 the value
    is [|cluster|]. *)
Theorem effective_s_clamp seeds st :
  seeds_present G seeds ≠ ∅ → reachable sf E G X alpha seeds st →
  (1 ≤ alpha →
     effective_s G alpha st.1
     = clamp (alpha * Z.of_nat (size st.1)) 1 (population G))
  ∧ (alpha * Z.of_nat (size st.1) < 1 →
     effective_s G alpha st.1 = Z.of_nat (size st.1)).
Proof.
  intros Hne Hreach.
  destruct (reachable_cluster _ _ Hne Hreach) as [Hc Hsub].
  assert (0 < size st.1)%nat as Hpos.
  { destruct (size st.1) eqn:Hs; [|lia].
    destruct Hc. apply leibniz_equiv. by apply size_empty_inv. }
  assert (size st.1 ≤ size (nodes G))%nat as Hle by by apply subseteq_size.
  unfold effective_s, clamp, population. split; intros Ha.
  - destruct (Z.ltb_spec (alpha * Z.of_nat (size st.1)) 1); [nia|].
    destruct (Z.ltb_spec (Z.of_nat (size (nodes G)))
                (alpha * Z.of_nat (size st.1))); lia.
  - destruct (Z.ltb_spec (alpha * Z.of_nat (size st.1)) 1); [|lia].
    destruct (Z.ltb_spec (Z.of_nat (size (nodes G)))
                (Z.of_nat (size st.1))); lia.
Qed.

(** *** Seeds that are not in the graph *)

Lemma sorted_strings_perm (S : gset string) : sorted_strings S ≡ₚ elements S.
Proof. apply merge_sort_Permutation. Qed.

(** C7: when no seed is a node of the graph the call prints the error,
    returns the empty list and ends as [EmptySeedSet]; when some but not
    all seeds are missing, the call behaves as on the present seeds alone,
    preceded by one warning that lists exactly the missing seeds. *)
Theorem missing_seeds seeds :
  (seeds ∩ nodes G = ∅ →
     ∃ log, diamond sf E G X alpha verbose seeds
            = Some (MkResult [] log EmptySeedSet)
            ∧ ErrNoSeeds ∈ log)
  ∧ (seeds ∩ nodes G ≠ ∅ → seeds ∖ nodes G ≠ ∅ →
     ∃ r, diamond sf E G X alpha verbose (seeds ∩ nodes G) = Some r
       ∧ r_exit r ≠ EmptySeedSet
       ∧ diamond sf E G X alpha verbose seeds
         = Some (MkResult (r_added r)
                   (WarnMissingSeeds (sorted_strings (seeds ∖ nodes G))
                      :: r_log r)
                   (r_exit r))
       ∧ sorted_strings (seeds ∖ nodes G) ≡ₚ elements (seeds ∖ nodes G)).
Proof.
  split.
  - intros Hemp. unfold diamond, diamond_fuel.
    rewrite seeds_present_inter, Hemp. rewrite decide_True by done.
    eexists. split; [done|]. set_solver.
  - intros Hne Hmiss.
    destruct (diamond_returns (seeds ∩ nodes G)) as [r Hr].
    exists r. split; [done|].
    assert (seeds_present G (seeds ∩ nodes G) = seeds ∩ nodes G) as Hp1
      by (rewrite seeds_present_inter; set_solver).
    assert (seeds ∖ (seeds ∩ nodes G) = seeds ∖ nodes G) as Hm
      by set_solver.
    assert ((seeds ∩ nodes G) ∖ (seeds ∩ nodes G) = (∅ : gset string)) as Hm'
      by set_solver.
    revert Hr. unfold diamond, diamond_fuel. cbv zeta.
    rewrite Hp1, !seeds_present_inter, Hm, Hm'.
    rewrite (decide_True (P := ∅ = ∅)) by done.
    rewrite !(decide_False (P := seeds ∩ nodes G = ∅)) by done.
    simpl. intros Hr. split_and!.
    + apply main_loop_run in Hr as (c' & _ & Hex). unfold exit_ok in Hex.
      by destruct (r_exit r).
    + by apply main_loop_log_cons.
    + apply sorted_strings_perm.
Qed.
End EngineFacts.

(** ** Binomial coefficients and the hypergeometric tail *)

Section Binomial.
Local Open Scope nat_scope.

Lemma binom_0_r n : binom n 0 = 1.
Proof. by destruct n. Qed.

Lemma binom_gt n : ∀ k, n < k → binom n k = 0.
Proof.
  induction n as [|n IH]; intros [|k] Hk; simpl; try lia.
  rewrite !IH by lia. done.
Qed.

Lemma binom_pos n : ∀ k, k ≤ n → 0 < binom n k.
Proof.
  induction n as [|n IH]; intros [|k] Hk; simpl; try lia.
  assert (0 < binom n k) by (apply IH; lia). lia.
Qed.

Lemma sum_list_fmap_add {A} (f g : A → nat) (l : list A) :
  sum_list ((λ i, f i + g i) <$> l) = sum_list (f <$> l) + sum_list (g <$> l).
Proof. induction l as [|x l IH]; csimpl; lia. Qed.

Lemma sum_list_fmap_ext {A} (f g : A → nat) (l : list A) :
  (∀ i, i ∈ l → f i = g i) → sum_list (f <$> l) = sum_list (g <$> l).
Proof.
  induction l as [|x l IH]; intros Hfg; csimpl; [done|].
  rewrite Hfg, IH; set_solver.
Qed.

Lemma sum_list_fmap_0 {A} (f : A → nat) (l : list A) :
  (∀ i, i ∈ l → f i = 0) → sum_list (f <$> l) = 0.
Proof.
  induction l as [|x l IH]; intros Hf; csimpl; [done|].
  rewrite Hf, IH; set_solver.
Qed.

Lemma sum_list_app (l1 l2 : list nat) :
  sum_list (l1 ++ l2) = sum_list l1 + sum_list l2.
Proof. induction l1 as [|x l1 IH]; csimpl; lia. Qed.

(** Splitting the range of a tail at [mid]. *)
Lemma tail_count_split n m N lo mid :
  lo ≤ mid → mid ≤ S N →
  tail_count n m N lo
  = sum_list ((λ i, binom n i * binom m (N - i)) <$> seq lo (mid - lo))
    + tail_count n m N mid.
Proof.
  intros H1 H2. unfold tail_count.
  replace (S N - lo) with ((mid - lo) + (S N - mid)) by lia.
  rewrite seq_app, fmap_app, sum_list_app.
  by replace (lo + (mid - lo)) with mid by lia.
Qed.

Lemma tail_count_le n m N lo lo' :
  lo ≤ lo' → tail_count n m N lo' ≤ tail_count n m N lo.
Proof.
  intros Hle. destruct (decide (lo' ≤ S N)) as [Hlo|Hlo].
  - rewrite (tail_count_split n m N lo lo') by done. lia.
  - unfold tail_count at 1. replace (S N - lo') with 0 by lia. csimpl. lia.
Qed.

Lemma sum_seq_S (f : nat → nat) len :
  sum_list (f <$> seq 0 (S len))
  = f 0 + sum_list ((λ j, f (S j)) <$> seq 0 len).
Proof.
  rewrite <- cons_seq, <- fmap_S_seq, fmap_cons, <- list_fmap_compose. done.
Qed.

(** Vandermonde's identity. *)
Lemma vandermonde n : ∀ m N, tail_count n m N 0 = binom (n + m) N.
Proof.
  unfold tail_count. induction n as [|n IH]; intros m N; rewrite Nat.sub_0_r.
  - rewrite sum_seq_S, sum_list_fmap_0; [|done]. simpl.
    rewrite Nat.sub_0_r. lia.
  - destruct N as [|N]; [csimpl; rewrite binom_0_r; lia|].
    pose proof (IH m N) as IH1. pose proof (IH m (S N)) as IH2.
    rewrite Nat.sub_0_r in IH1, IH2.
    rewrite sum_seq_S in IH2. rewrite sum_seq_S.
    rewrite (sum_list_fmap_ext _
      (λ j, binom n j * binom m (N - j)
            + binom n (S j) * binom m (S N - S j))).
    2:{ intros j _. simpl. lia. }
    rewrite sum_list_fmap_add, IH1.
    rewrite !binom_0_r in *. simpl (binom (S n + m) (S N)). lia.
Qed.

(** Terms outside the support vanish. *)
Lemma tail_count_above n m N lo :
  Nat.min n N < lo → tail_count n m N lo = 0.
Proof.
  intros Hlo. unfold tail_count. apply sum_list_fmap_0.
  intros i [Hi1 Hi2]%elem_of_seq. rewrite binom_gt; lia.
Qed.

Lemma tail_count_below n m N lo :
  lo + m ≤ N → tail_count n m N lo = tail_count n m N 0.
Proof.
  intros Hlo. rewrite (tail_count_split n m N 0 lo) by lia.
  rewrite sum_list_fmap_0; [done|].
  intros i [Hi1 Hi2]%elem_of_seq. rewrite (binom_gt m); lia.
Qed.


End Binomial.

(** ** The exact scorer *)

Section Scorer.
Local Open Scope Q_scope.

Lemma inject_nat_pos c : (0 < c)%nat → 0 < inject_Z (Z.of_nat c).
Proof. intros Hc. change 0 with (inject_Z 0). rewrite <- Zlt_Qlt. lia. Qed.

Lemma ratio_le t t' c : (0 < c)%nat → (t ≤ t')%nat → ratio t c <= ratio t' c.
Proof.
  intros Hc Ht. pose proof (inject_nat_pos c Hc) as Hpos. unfold ratio.
  apply Qle_shift_div_r; [done|].
  unfold Qdiv. rewrite <- Qmult_assoc, (Qmult_comm (/ _)), Qmult_inv_r by lra.
  rewrite Qmult_1_r. rewrite <- Zle_Qle. lia.
Qed.

Lemma ratio_self c : (0 < c)%nat → ratio c c == 1.
Proof.
  intros Hc. pose proof (inject_nat_pos c Hc). unfold ratio, Qdiv.
  apply Qmult_inv_r. lra.
Qed.

Lemma ratio_0 c : ratio 0 c == 0.
Proof. unfold ratio, Qdiv. simpl. ring. Qed.

Lemma Qsum_counts (a : nat → nat) (c : nat) (l : list nat) :
  foldr Qplus 0 ((λ i, inject_Z (Z.of_nat (a i)) / inject_Z (Z.of_nat c)) <$> l)
  == ratio (sum_list (a <$> l)) c.
Proof.
  unfold ratio. induction l as [|x l IH]; csimpl.
  - unfold Qdiv. ring.
  - rewrite IH, Nat2Z.inj_add, inject_Z_plus. unfold Qdiv. ring.
Qed.

Lemma Qsum_pmf M n N lo :
  Qsum (hypergeom_pmf M n N) lo N
  == ratio (tail_count n (M - n) N lo) (binom M N).
Proof. unfold Qsum, hypergeom_pmf, tail_count. apply Qsum_counts. Qed.

Lemma clip01_id v : 0 <= v → v <= 1 → clip01 v == v.
Proof.
  intros H0 H1. unfold clip01.
  rewrite Q.max_r; [by apply Q.min_r|]. by apply Q.min_glb.
Qed.

Lemma argcheck_spec M n N :
  hypergeom_argcheck M n N = true ↔ (0 < M ∧ 0 ≤ n ≤ M ∧ 0 ≤ N ≤ M)%Z.
Proof. unfold hypergeom_argcheck. rewrite !andb_true_iff. lia. Qed.

(** On valid parameters the survival function at [x] is the number of
    draws with more than [x] marked items over the number of all draws;
    this covers the three branches of [hypergeom_sf]. *)
Lemma hypergeom_sf_count x M n N :
  hypergeom_argcheck M n N = true →
  ∃ q, hypergeom_sf x M n N = Some (PVal q)
     ∧ q == ratio (tail_count (Z.to_nat n) (Z.to_nat M - Z.to_nat n)
                     (Z.to_nat N) (Z.to_nat (x + 1)))
                  (binom (Z.to_nat M) (Z.to_nat N)).
Proof.
  intros Hok. unfold hypergeom_sf. rewrite Hok.
  apply argcheck_spec in Hok as (HM & Hn & HN).
  set (n' := Z.to_nat n). set (M' := Z.to_nat M). set (N' := Z.to_nat N).
  set (lo := Z.to_nat (x + 1)).
  assert (binom (n' + (M' - n')) N' = binom M' N') as Htot
    by (f_equal; lia).
  assert (0 < binom M' N')%nat as Hpos by (apply binom_pos; lia).
  destruct (Z.ltb_spec x (Z.max (N - (M - n)) 0)) as [Ha|Ha].
  - eexists. split; [done|].
    assert (tail_count n' (M' - n') N' lo = binom M' N') as ->.
    { rewrite <- Htot, <- vandermonde.
      destruct (decide (lo = 0%nat)) as [->|Hlo]; [done|].
      apply tail_count_below. lia. }
    by rewrite ratio_self.
  - destruct (Z.ltb_spec x (Z.min n N)) as [Hb|Hb].
    + eexists. split; [done|].
      pose proof (Qsum_pmf M' n' N' lo) as Hsum.
      assert (ratio (tail_count n' (M' - n') N' lo) (binom M' N') <= 1).
      { rewrite <- (ratio_self (binom M' N')) by done.
        apply ratio_le; [done|]. rewrite <- Htot, <- vandermonde.
        apply tail_count_le. lia. }
      assert (0 <= ratio (tail_count n' (M' - n') N' lo) (binom M' N')).
      { rewrite <- (ratio_0 (binom M' N')). apply ratio_le; [done|lia]. }
      rewrite clip01_id; [done|lra..].
    + eexists. split; [done|].
      rewrite tail_count_above by lia. by rewrite ratio_0.
Qed.

Lemma hypergeom_sf_invalid x M n N :
  hypergeom_argcheck M n N = false → hypergeom_sf x M n N = Some PNaN.
Proof. intros Hok. unfold hypergeom_sf. by rewrite Hok. Qed.

(** At [x = -1], that is for [kb = 0], the value is exactly 1 (or NaN):
    never strictly below the initial [best_p]. *)
Lemma hypergeom_sf_minus_1 M n N :
  hypergeom_sf (-1) M n N = Some (PVal 1)
  ∨ hypergeom_sf (-1) M n N = Some PNaN.
Proof.
  unfold hypergeom_sf. destruct (hypergeom_argcheck M n N); [|by right].
  left. destruct (Z.ltb_spec (-1) (Z.max (N - (M - n)) 0)); [done|lia].
Qed.


End Scorer.

(** ** The engine with the exact scorer *)

Section ExactEngine.
Variable G : Graph.
Variable alpha : Z.

Lemma effective_s_bounds cluster :
  cluster ≠ ∅ → cluster ⊆ nodes G →
  1 ≤ effective_s G alpha cluster ≤ population G.
Proof.
  intros Hne Hsub.
  assert (0 < size cluster)%nat as Hpos.
  { destruct (size cluster) eqn:Hs; [|lia].
    destruct Hne. apply leibniz_equiv. by apply size_empty_inv. }
  assert (size cluster ≤ size (nodes G))%nat as Hle by by apply subseteq_size.
  unfold effective_s, population.
  destruct (Z.ltb_spec (alpha * Z.of_nat (size cluster)) 1);
    match goal with |- context [?a <? ?b] =>
      destruct (Z.ltb_spec a b) end; lia.
Qed.

Lemma kb_of_nodes cluster node :
  node ∈ nodes G →
  kb_of G cluster node
  = Z.of_nat (size (filter (λ nb, nb ∈ cluster) (nx_neighbors G node))).
Proof. intros Hn. unfold kb_of. by rewrite neighbors_lookup. Qed.


(** C8: for valid parameters [(N, s, k)] the computed p-value does not
    increase when [kb] increases. *)
Theorem pvalue_antitone_in_kb s k kb kb' :
  hypergeom_argcheck (population G) s k = true →
  kb ≤ kb' →
  ∃ p p', pval_of hypergeom_sf G s k kb = PVal p
        ∧ pval_of hypergeom_sf G s k kb' = PVal p'
        ∧ (p' <= p)%Q.
Proof.
  intros Hok Hkb. unfold pval_of.
  destruct (hypergeom_sf_count (kb - 1) _ _ _ Hok) as (p & -> & Hp).
  destruct (hypergeom_sf_count (kb' - 1) _ _ _ Hok) as (p' & -> & Hp').
  exists p, p'. split_and!; [done..|]. rewrite Hp, Hp'.
  apply argcheck_spec in Hok as (HM & Hn & HN).
  apply ratio_le; [apply binom_pos; lia|]. apply tail_count_le. lia.
Qed.

(** C3 (as the code has it): a candidate of degree 0 is skipped without a
    call of the scorer; a candidate of positive degree with [kb = 0] is
    scored, its p-value being exactly 1 (NaN on parameters the scorer
    rejects); and the node an iteration selects always has neighbours in
    the cluster, since its p-value must be strictly below the initial
    [best_p = 1.0]. *)
Theorem zero_adjacency_never_selected (E : enumeration) cluster :
  (∀ node, nx_degree G node = 0 →
     score_candidate hypergeom_sf G alpha cluster node = None)
  ∧ (∀ node, node ∈ nodes G → nx_degree G node ≠ 0 →
       kb_of G cluster node = 0 →
       score_candidate hypergeom_sf G alpha cluster node = Some (PVal 1)
       ∨ score_candidate hypergeom_sf G alpha cluster node = Some PNaN)
  ∧ (∀ n p, iteration hypergeom_sf E G alpha cluster = Selected n p →
       nx_degree G n ≠ 0 ∧ 0 < kb_of G cluster n).
Proof.
  assert (∀ node, node ∈ nodes G → nx_degree G node ≠ 0 →
       kb_of G cluster node = 0 →
       score_candidate hypergeom_sf G alpha cluster node = Some (PVal 1)
       ∨ score_candidate hypergeom_sf G alpha cluster node = Some PNaN) as H0.
  { intros node Hn Hk Hkb. unfold score_candidate.
    rewrite (degrees_lookup _ _ Hn). simpl.
    destruct (Z.eqb_spec (nx_degree G node) 0) as [?|_]; [done|].
    unfold pval_of. rewrite Hkb. change (0 - 1) with (-1).
    destruct (hypergeom_sf_minus_1 (population G)
                (effective_s G alpha cluster) (nx_degree G node))
      as [-> | ->]; auto. }
  split_and!; [|done|].
  - intros node. apply score_candidate_degree_0.
  - intros n pv (Hn & _ & Hsc & p & _ & _ & -> & Hlt & _)%iteration_Selected.
    destruct (score_candidate_Some _ _ _ _ _ _ Hsc) as (_ & Hk & _).
    split; [done|].
    assert (0 ≤ kb_of G cluster n) by (unfold kb_of; lia).
    destruct (decide (kb_of G cluster n = 0)) as [Hkb|]; [|lia].
    destruct (H0 n Hn Hk Hkb) as [Hsc'|Hsc']; rewrite Hsc in Hsc'; [|done].
    injection Hsc' as ->. by apply Qlt_irrefl in Hlt.
Qed.
End ExactEngine.

(** ** Leaving the loop early *)

Section EarlyExit.
Variable sf : Z → Z → Z → Z → option pvalue.
Variable E : enumeration.
Variable G : Graph.
Variable X : Z.
Variable alpha : Z.
Variable verbose : bool.

End EarlyExit.


(** ** Ties and the enumeration order *)

Lemma iteration_enum_ext sf (E E' : enumeration) G alpha cluster :
  (∀ S, E' S = E S) →
  iteration sf E' G alpha cluster = iteration sf E G alpha cluster.
Proof. intros Hext. unfold iteration. by rewrite Hext. Qed.

Lemma main_loop_enum_ext sf (E E' : enumeration) G X alpha verbose fuel :
  (∀ S, E' S = E S) →
  ∀ cluster added log,
    main_loop sf E' G X alpha verbose fuel cluster added log
    = main_loop sf E G X alpha verbose fuel cluster added log.
Proof.
  intros Hext. induction fuel as [|fuel IH]; intros c a l; simpl; [done|].
  rewrite (iteration_enum_ext sf E E') by done.
  destruct (_ <? _); [|done]. by destruct (iteration _ _ _ _ _).
Qed.

(** C2 (as the code has it): the result depends on the inputs and on the
    order in which the candidate sets are enumerated, and on nothing else;
    the node an iteration selects is the first candidate, in that order,
    whose p-value is the least: every scored candidate before it has a
    strictly larger p-value, every one after it a larger or equal one. *)
Theorem first_minimum_wins sf (E : enumeration) G X alpha verbose :
  (∀ E' : enumeration, (∀ S, E' S = E S) →
     ∀ seeds, diamond sf E' G X alpha verbose seeds
              = diamond sf E G X alpha verbose seeds)
  ∧ (∀ cluster n pv,
       iteration sf E G alpha cluster = Selected n pv →
       ∃ p l1 l2,
         pv = PVal p
         ∧ E (nodes G ∖ cluster) = l1 ++ n :: l2
         ∧ score_candidate sf G alpha cluster n = Some (PVal p)
         ∧ (∀ m q, m ∈ l1 →
              score_candidate sf G alpha cluster m = Some (PVal q) → (p < q)%Q)
         ∧ (∀ m q, m ∈ l2 →
              score_candidate sf G alpha cluster m = Some (PVal q) → (p <= q)%Q)).
Proof.
  split.
  - intros E' Hext seeds. unfold diamond, diamond_fuel.
    case_decide; [done|]. by apply main_loop_enum_ext.
  - intros cluster n pv
      (_ & _ & Hsc & p & l1 & l2 & -> & _ & Hl & H1 & H2)%iteration_Selected.
    by exists p, l1, l2.
Qed.

(** * Concrete runs *)

Lemma path4_wf : graph_wf path4 ∧ loop_free path4.
Proof.
  split.
  - repeat apply graph_wf_add_edge. apply graph_wf_empty.
  - repeat (apply loop_free_add_edge; [done|]). apply loop_free_empty.
Qed.

(** Scenario A of the specification: on the path A - B - C - D with seed A
    and [X = 1], B is added. *)
Example path4_run :
  diamond hypergeom_sf enum_elements path4 1 1 true {["A"]}
  = Some (MkResult ["B"] [InfoNetwork 4 1; MsgAdded "B" (PVal (18 # 36)) 1 1]
            TargetReached).
Proof. vm_compute. reflexivity. Qed.

Example path4_first_step :
  reachable hypergeom_sf enum_elements path4 1 2 {["A"]}
    ({["B"]} ∪ seeds_present path4 {["A"]}, [] ++ ["B"]).
Proof.
  apply rtc_once. eapply (loop_step_select _ _ _ _ _ _ _ _ (PVal (30 # 36))).
  - simpl. lia.
  - vm_compute. reflexivity.
Qed.

Lemma seeds_A_present G : "A" ∈ nodes G → seeds_present G {["A"]} ≠ ∅.
Proof. intros HA. unfold seeds_present. set_solver. Qed.

(** Closed facts about concrete finite sets, by evaluation. *)
Ltac by_compute := apply (bool_decide_unpack _); vm_compute; exact I.

(** ** The theorems at concrete inputs *)

Lemma pvalue_antitone_in_kb_witness :
  ∃ p p', pval_of hypergeom_sf path4 2 3 1 = PVal p
        ∧ pval_of hypergeom_sf path4 2 3 2 = PVal p'
        ∧ (p' <= p)%Q.
Proof.
  apply (pvalue_antitone_in_kb path4 2 3 1 2).
  - vm_compute. reflexivity.
  - lia.
Defined.

Lemma effective_s_clamp_witness :
  (1 ≤ 2 →
     effective_s path4 2 ({["B"]} ∪ seeds_present path4 {["A"]})
     = clamp (2 * Z.of_nat (size ({["B"]} ∪ seeds_present path4 {["A"]})))
         1 (population path4))
  ∧ (2 * Z.of_nat (size ({["B"]} ∪ seeds_present path4 {["A"]})) < 1 →
     effective_s path4 2 ({["B"]} ∪ seeds_present path4 {["A"]})
     = Z.of_nat (size ({["B"]} ∪ seeds_present path4 {["A"]}))).
Proof.
  refine (effective_s_clamp hypergeom_sf enum_elements path4 1 2 {["A"]}
            ({["B"]} ∪ seeds_present path4 {["A"]}, [] ++ ["B"]) _ _).
  - apply seeds_A_present. unfold path4. rewrite !nodes_add_edge. set_solver.
  - apply path4_first_step.
Defined.


Lemma missing_seeds_witness :
  (∃ log, diamond hypergeom_sf enum_elements path4 1 1 true {["Q"]}
          = Some (MkResult [] log EmptySeedSet)
          ∧ ErrNoSeeds ∈ log)
  ∧ ∃ r, diamond hypergeom_sf enum_elements path4 1 1 true
           ({["A"; "Z"]} ∩ nodes path4) = Some r
       ∧ r_exit r ≠ EmptySeedSet
       ∧ diamond hypergeom_sf enum_elements path4 1 1 true {["A"; "Z"]}
         = Some (MkResult (r_added r)
                   (WarnMissingSeeds (sorted_strings ({["A"; "Z"]} ∖ nodes path4))
                      :: r_log r)
                   (r_exit r))
       ∧ sorted_strings ({["A"; "Z"]} ∖ nodes path4)
         ≡ₚ elements ({["A"; "Z"]} ∖ nodes path4).
Proof.
  split.
  - apply (proj1 (missing_seeds hypergeom_sf enum_elements path4 1 1 true
                    {["Q"]})).
    by_compute.
  - apply (proj2 (missing_seeds hypergeom_sf enum_elements path4 1 1 true
                    {["A"; "Z"]})); by_compute.
Defined.

Lemma zero_degree_never_added_witness : nx_degree path4 "B" ≠ 0.
Proof.
  apply (zero_degree_never_added hypergeom_sf enum_elements path4 1 1 true
           (Z.to_nat 1) {["A"]}
           (MkResult ["B"] [InfoNetwork 4 1; MsgAdded "B" (PVal (18 # 36)) 1 1]
              TargetReached) "B").
  - apply path4_run.
  - simpl. set_solver.
Defined.

Lemma diamond_terminates_witness :
  ∃ r, diamond hypergeom_sf enum_elements path4 1 1 true {["A"]} = Some r
     ∧ diamond_fuel hypergeom_sf enum_elements path4 1 1 true 7 {["A"]}
       = Some r
     ∧ Z.of_nat (length (r_added r)) ≤ 1.
Proof.
  destruct (diamond_terminates hypergeom_sf enum_elements path4 1 1 true
              {["A"]}) as (r & Hr & Hfuel & _ & Hlen & _).
  exists r. split_and!; [done| |done]. apply Hfuel. simpl. lia.
Defined.

Lemma cluster_growth_witness :
  size ({["B"]} ∪ seeds_present path4 {["A"]})
  = (size (seeds_present path4 {["A"]}) + length ([] ++ ["B"]))%nat
  ∧ NoDup ([] ++ ["B"]).
Proof.
  destruct (cluster_growth hypergeom_sf enum_elements path4 1 2 true {["A"]})
    as (_ & _ & _ & Hreach).
  destruct (Hreach _ path4_first_step) as (_ & Hnd & Hsz & _). done.
Defined.

Lemma zero_adjacency_never_selected_witness :
  nx_degree path4 "B" ≠ 0 ∧ 0 < kb_of path4 {["A"]} "B".
Proof.
  apply (proj2 (proj2 (zero_adjacency_never_selected path4 1 enum_elements
                         {["A"]})) "B" (PVal (18 # 36))).
  vm_compute. reflexivity.
Defined.

Lemma first_minimum_wins_witness :
  ∃ p l1 l2,
    PVal (1 # 3) = PVal p
    ∧ enum_elements (nodes fork ∖ {["A"]}) = l1 ++ "C" :: l2
    ∧ score_candidate hypergeom_sf fork 1 {["A"]} "C" = Some (PVal p)
    ∧ (∀ m q, m ∈ l1 →
         score_candidate hypergeom_sf fork 1 {["A"]} m = Some (PVal q) →
         (p < q)%Q)
    ∧ (∀ m q, m ∈ l2 →
         score_candidate hypergeom_sf fork 1 {["A"]} m = Some (PVal q) →
         (p <= q)%Q).
Proof.
  apply (proj2 (first_minimum_wins hypergeom_sf enum_elements fork 1 1 true)
           {["A"]} "C" (PVal (1 # 3))).
  vm_compute. reflexivity.
Defined.

(** ** Where the code departs from the specification *)

(** C2, refuted: on B - A - C with seed A the two leaves tie at p = 1/3, and
    which one is added depends on the order the candidate set is enumerated
    in, all inputs being equal. *)
Lemma tie_depends_on_enumeration :
  score_candidate hypergeom_sf fork 1 {["A"]} "B"
  = score_candidate hypergeom_sf fork 1 {["A"]} "C"
  ∧ r_added <$> diamond hypergeom_sf enum_elements fork 1 1 true {["A"]}
    = Some ["C"]
  ∧ r_added <$> diamond hypergeom_sf enum_reversed fork 1 1 true {["A"]}
    = Some ["B"].
Proof. vm_compute. done. Qed.

(** C3, refuted: on the path A - B - C - D with cluster {A}, the candidate C
    has no neighbour in the cluster and positive degree; it is not skipped
    but scored, with p-value 1. *)
Lemma zero_adjacency_is_scored :
  "C" ∈ nodes path4 ∖ {["A"]}
  ∧ kb_of path4 {["A"]} "C" = 0
  ∧ nx_degree path4 "C" = 2
  ∧ score_candidate hypergeom_sf path4 1 {["A"]} "C" = Some (PVal 1).
Proof. split; [by_compute|]. vm_compute. done. Qed.


(** * Further properties of [diamond] *)

Section EngineMore.
Variable sf : Z → Z → Z → Z → option pvalue.
Variable E : enumeration.
Variable G : Graph.
Variable X : Z.
Variable alpha : Z.

(** X1: whatever the scorer, the enumeration order and [X]: every returned node
    is a node of the graph and none is a seed. *)
Theorem added_nodes_are_new verbose fuel seeds r n :
  diamond_fuel sf E G X alpha verbose fuel seeds = Some r →
  n ∈ r_added r → n ∈ nodes G ∧ n ∉ seeds.
Proof.
  intros (c' & Hreach & _)%diamond_fuel_run Hn.
  apply reachable_inv in Hreach as (_ & _ & Hall). simpl in Hall.
  destruct (Hall n Hn) as (HnG & Hnp & _). split; [done|].
  intros Hs. apply Hnp. unfold seeds_present. set_solver.
Qed.

(** X2: the exit and the length of the result: the call ends as [EmptySeedSet]
    exactly when no seed is in the graph; when the target was reached the
    list has [max(0, X)] nodes; after either [break] it has fewer than [X]. *)
Theorem exit_reason_and_length verbose fuel seeds r :
  diamond_fuel sf E G X alpha verbose fuel seeds = Some r →
  (r_exit r = EmptySeedSet ↔ seeds ∩ nodes G = ∅)
  ∧ (r_exit r = TargetReached →
     Z.of_nat (length (r_added r)) = Z.max 0 X)
  ∧ (r_exit r = NoCandidates ∨ r_exit r = NoScorableCandidate →
     Z.of_nat (length (r_added r)) < X).
Proof.
  intros Hr. destruct (diamond_fuel_added_bounds _ _ _ _ _ _ _ _ _ Hr) as [Hlen _].
  apply diamond_fuel_run in Hr as (c' & _ & Hex).
  rewrite <- seeds_present_inter. unfold exit_ok in Hex.
  destruct Hex as [(-> & Hemp & ->)|[Hne Hex]].
  - split_and!; [done|done|]. by intros [?|?].
  - destruct (r_exit r); split_and!; try done; try lia; try by intros [?|?].
    all: intros; lia.
Qed.

Lemma main_loop_verbose fuel : ∀ cluster added log log',
  (λ r, (r_added r, r_exit r))
    <$> main_loop sf E G X alpha true fuel cluster added log
  = (λ r, (r_added r, r_exit r))
    <$> main_loop sf E G X alpha false fuel cluster added log'.
Proof.
  induction fuel as [|fuel IH]; intros c a l l'; simpl.
  - by destruct (_ <? _).
  - destruct (_ <? _); [|done].
    destruct (iteration _ _ _ _ _); [apply IH|done..].
Qed.

Lemma main_loop_quiet fuel : ∀ cluster added log r,
  main_loop sf E G X alpha false fuel cluster added log = Some r →
  r_log r = log.
Proof.
  induction fuel as [|fuel IH]; intros c a l r; simpl.
  - destruct (_ <? _); [done|]. by intros [= <-].
  - destruct (_ <? _); [|by intros [= <-]].
    destruct (iteration _ _ _ _ _).
    + intros ->%IH. by rewrite app_nil_r.
    + intros [= <-]. simpl. by rewrite app_nil_r.
    + intros [= <-]. simpl. by rewrite app_nil_r.
Qed.

(** X3: [verbose] changes the messages and nothing else: the returned list and
    the exit are the same, and without it only the warning about missing
    seeds and the error are printed. *)
Theorem verbose_only_changes_messages fuel seeds :
  (λ r, (r_added r, r_exit r))
    <$> diamond_fuel sf E G X alpha true fuel seeds
  = (λ r, (r_added r, r_exit r))
    <$> diamond_fuel sf E G X alpha false fuel seeds
  ∧ (∀ r e, diamond_fuel sf E G X alpha false fuel seeds = Some r →
       e ∈ r_log r → e = ErrNoSeeds ∨ ∃ m, e = WarnMissingSeeds m).
Proof.
  unfold diamond_fuel. split.
  - case_decide; [done|]. apply main_loop_verbose.
  - intros r e. case_decide.
    + intros [= <-]. simpl. case_decide; set_solver.
    + intros ->%main_loop_quiet. simpl. rewrite app_nil_r.
      case_decide; set_solver.
Qed.

Lemma main_loop_log fuel : ∀ cluster added log r,
  main_loop sf E G X alpha true fuel cluster added log = Some r →
  omap added_node log = added →
  (∀ node p total X', MsgAdded node p total X' ∈ log →
     ∃ q, p = PVal q ∧ (q < 1)%Q ∧ X' = X
          ∧ added !! Nat.pred total = Some node ∧ (0 < total)%nat) →
  omap added_node (r_log r) = r_added r
  ∧ (∀ node p total X', MsgAdded node p total X' ∈ r_log r →
       ∃ q, p = PVal q ∧ (q < 1)%Q ∧ X' = X
            ∧ r_added r !! Nat.pred total = Some node ∧ (0 < total)%nat).
Proof.
  induction fuel as [|fuel IH]; intros c a l r; simpl.
  - destruct (_ <? _); [done|]. by intros [= <-].
  - destruct (_ <? _); [|by intros [= <-]].
    destruct (iteration _ _ _ _ _) as [n pv| |] eqn:Hit.
    + intros Hr Hlog Hall. apply IH in Hr; [done| |].
      * rewrite omap_app, Hlog. done.
      * intros node p total X' [Hin|Hin]%elem_of_app.
        -- destruct (Hall _ _ _ _ Hin) as (q & -> & ? & -> & Hl & ?).
           exists q. split_and!; [done..| |done].
           by apply lookup_app_l_Some.
        -- apply list_elem_of_singleton in Hin as [= -> -> -> ->].
           apply iteration_Selected in Hit
             as (_ & _ & _ & q & _ & _ & -> & Hq & _).
           exists q. split_and!; [done..| |lia]. simpl.
           rewrite lookup_app_r by done. by rewrite Nat.sub_diag.
    + intros [= <-] Hlog Hall. simpl. split.
      * rewrite omap_app, Hlog. simpl. by rewrite app_nil_r.
      * intros node p total X' [Hin|Hin]%elem_of_app; [by eauto|].
        by apply list_elem_of_singleton in Hin.
    + intros [= <-] Hlog Hall. simpl. split.
      * rewrite omap_app, Hlog. simpl. by rewrite app_nil_r.
      * intros node p total X' [Hin|Hin]%elem_of_app; [by eauto|].
        by apply list_elem_of_singleton in Hin.
Qed.

(** X4: with [verbose] on, the [Added node] messages are the record of the run:
    their nodes, in order, are the returned list; the [i]-th carries the
    count [i] and the target [X]; and its p-value is a number strictly
    below 1, never NaN and never the 1.0 that stands in for an exception. *)
Theorem log_records_added fuel seeds r :
  diamond_fuel sf E G X alpha true fuel seeds = Some r →
  omap added_node (r_log r) = r_added r
  ∧ (∀ node p total X', MsgAdded node p total X' ∈ r_log r →
       ∃ q, p = PVal q ∧ (q < 1)%Q ∧ X' = X
            ∧ r_added r !! Nat.pred total = Some node ∧ (0 < total)%nat).
Proof.
  unfold diamond_fuel. case_decide as Hp.
  - intros [= <-]. simpl. split.
    + rewrite omap_app. by case_decide.
    + intros node p total X' Hin. case_decide; set_solver.
  - intros Hr. apply main_loop_log in Hr; [done| |].
    + rewrite omap_app. by case_decide.
    + intros node p total X' Hin. case_decide; set_solver.
Qed.
End EngineMore.

Section ExactMore.
Variable E : enumeration.
Variable G : Graph.
Variable X : Z.
Variable alpha : Z.

Lemma kb_of_le_degree cluster n :
  n ∈ nodes G → 0 ≤ kb_of G cluster n ≤ nx_degree G n.
Proof.
  intros Hn. rewrite kb_of_nodes by done. unfold nx_degree.
  assert (size (filter (λ nb, nb ∈ cluster) (nx_neighbors G n))
          ≤ size (nx_neighbors G n))%nat
    by (apply subseteq_size; set_solver).
  case_decide; lia.
Qed.

Lemma hypergeom_sf_nonneg x M n N q :
  hypergeom_sf x M n N = Some (PVal q) → (0 <= q)%Q.
Proof.
  unfold hypergeom_sf. destruct (hypergeom_argcheck M n N); [|done].
  destruct (_ <? _); [by intros [= <-]|].
  destruct (_ <? _); intros [= <-]; [apply Q.le_max_l|done].
Qed.

(** The node an iteration selects has a neighbour in the cluster. *)
Lemma selected_has_cluster_neighbour cluster n pv :
  iteration hypergeom_sf E G alpha cluster = Selected n pv →
  ∃ nb, nb ∈ nx_neighbors G n ∧ nb ∈ cluster.
Proof.
  intros (Hn & _ & Hsc & p & _ & _ & -> & Hlt & _)%iteration_Selected.
  destruct (score_candidate_Some _ _ _ _ _ _ Hsc) as (_ & Hk & Hpv).
  destruct (decide (kb_of G cluster n = 0)) as [Hkb|Hkb].
  - unfold pval_of in Hpv. rewrite Hkb in Hpv. change (0 - 1) with (-1) in Hpv.
    destruct (hypergeom_sf_minus_1 (population G)
                (effective_s G alpha cluster) (nx_degree G n)) as [Heq|Heq];
      rewrite Heq in Hpv; [|done].
    injection Hpv as ->. by apply Qlt_irrefl in Hlt.
  - rewrite kb_of_nodes in Hkb by done.
    destruct (set_choose_L
                (filter (λ nb, nb ∈ cluster) (nx_neighbors G n))) as [nb Hnb].
    + intros Hemp. rewrite Hemp, size_empty in Hkb. done.
    + exists nb. set_solver.
Qed.

(** X5: with the exact scorer every p-value an iteration accepts lies in
    [[0, 1)]. *)
Theorem admitted_pvalue_in_unit_interval cluster n pv :
  iteration hypergeom_sf E G alpha cluster = Selected n pv →
  ∃ q, pv = PVal q ∧ (0 <= q)%Q ∧ (q < 1)%Q.
Proof.
  intros (_ & _ & Hsc & p & _ & _ & -> & Hlt & _)%iteration_Selected.
  exists p. split_and!; [done| |done].
  destruct (score_candidate_Some _ _ _ _ _ _ Hsc) as (_ & _ & Hpv).
  unfold pval_of in Hpv.
  destruct (hypergeom_sf _ _ _ _) as [pv'|] eqn:Hsf; [|by injection Hpv as ->].
  subst pv'. by apply hypergeom_sf_nonneg in Hsf.
Qed.

Lemma saturated_no_selection cluster :
  cluster ≠ ∅ → cluster ⊆ nodes G →
  population G ≤ alpha * Z.of_nat (size cluster) →
  ∀ n pv, iteration hypergeom_sf E G alpha cluster ≠ Selected n pv.
Proof.
  intros Hne Hsub Hsat n pv
    (Hn & _ & Hsc & p & _ & _ & -> & Hlt & _)%iteration_Selected.
  destruct (score_candidate_Some _ _ _ _ _ _ Hsc) as (_ & Hk & Hpv).
  pose proof (kb_of_le_degree cluster n Hn) as Hkb.
  destruct (effective_s_bounds G alpha cluster Hne Hsub) as [Hs1 Hs2].
  assert (effective_s G alpha cluster = population G) as Hs.
  { unfold effective_s in *.
    destruct (Z.ltb_spec (alpha * Z.of_nat (size cluster)) 1); [lia|].
    destruct (Z.ltb_spec (population G) (alpha * Z.of_nat (size cluster)));
      lia. }
  rewrite Hs in Hpv. unfold pval_of, hypergeom_sf in Hpv.
  destruct (hypergeom_argcheck _ _ _); [|done].
  destruct (Z.ltb_spec (kb_of G cluster n - 1)
              (Z.max (nx_degree G n - (population G - population G)) 0));
    [|lia].
  injection Hpv as ->. by apply Qlt_irrefl in Hlt.
Qed.

(** X6: when [alpha] times the number of present seeds reaches [N], the effective
    cluster size is the whole population: every p-value is 1 (or NaN) and
    the call adds nothing, whatever the graph and [X]. *)
Theorem saturated_alpha_adds_nothing verbose fuel seeds r :
  population G ≤ alpha * Z.of_nat (size (seeds_present G seeds)) →
  diamond_fuel hypergeom_sf E G X alpha verbose fuel seeds = Some r →
  r_added r = [].
Proof.
  intros Hsat. unfold diamond_fuel. case_decide as Hp; [by intros [= <-]|].
  assert (seeds_present G seeds ⊆ nodes G) as Hsub
    by (rewrite seeds_present_inter; set_solver).
  destruct fuel as [|fuel]; simpl.
  - destruct (_ <? _); [done|]. by intros [= <-].
  - destruct (_ <? _); [|by intros [= <-]].
    destruct (iteration _ _ _ _ _) as [n pv| |] eqn:Hit;
      [|by intros [= <-]..].
    by destruct (saturated_no_selection _ Hp Hsub Hsat n pv).
Qed.

Lemma reachable_attached seeds st :
  reachable hypergeom_sf E G X alpha seeds st →
  ∀ n, n ∈ st.1 → ∃ s, s ∈ seeds ∧ s ∈ nodes G ∧ rtc (edge G) n s.
Proof.
  unfold reachable. revert st.
  apply (rtc_ind_r (λ st, ∀ n, n ∈ st.1 →
                           ∃ s, s ∈ seeds ∧ s ∈ nodes G ∧ rtc (edge G) n s)).
  - simpl. intros n Hn. exists n. unfold seeds_present in Hn.
    split_and!; [set_solver..|apply rtc_refl].
  - intros st st' Hrtc Hstep IH.
    apply loop_step_inv in Hstep as (m & pv & _ & Hit & _ & _ & _ & ->).
    simpl. intros n [->%elem_of_singleton|Hn]%elem_of_union; [|by apply IH].
    destruct (selected_has_cluster_neighbour _ _ _ Hit) as (nb & Hnb & Hc).
    destruct (IH nb Hc) as (s & Hs & HsG & Hpath).
    exists s. split_and!; [done..|]. by eapply rtc_l.
Qed.

(** X7: with the exact scorer every returned node is joined to a seed by a path
    of the graph: each node had a neighbour in the cluster when it was
    added. *)
Theorem added_nodes_attached_to_seeds verbose fuel seeds r n :
  diamond_fuel hypergeom_sf E G X alpha verbose fuel seeds = Some r →
  n ∈ r_added r →
  ∃ s, s ∈ seeds ∧ s ∈ nodes G ∧ rtc (edge G) n s.
Proof.
  intros (c' & Hreach & _)%diamond_fuel_run Hn.
  apply (reachable_attached seeds _ Hreach).
  apply reachable_inv in Hreach as (-> & _). simpl. set_solver.
Qed.
End ExactMore.

(** * Properties of the readers *)

(** ** Stripping *)

Section TextFacts.
Variable isspace : ascii → bool.

Local Abbreviation lstrip := (py_lstrip isspace).
Local Abbreviation rstrip := (py_rstrip isspace).
Local Abbreviation strip := (py_strip isspace).

Lemma py_rstrip_cons c s :
  (rstrip s = EmptyString ∧ isspace c = true
   ∧ rstrip (String c s) = EmptyString)
  ∨ (rstrip (String c s) = String c (rstrip s)
     ∧ (rstrip s = EmptyString → isspace c = false)).
Proof.
  simpl. destruct (rstrip s); destruct (isspace c); auto.
  right. done.
Qed.

Lemma py_rstrip_idemp s : rstrip (rstrip s) = rstrip s.
Proof.
  induction s as [|c s IH]; [done|].
  destruct (py_rstrip_cons c s) as [(_ & _ & ->)|[-> Hc]]; [done|].
  destruct (py_rstrip_cons c (rstrip s)) as [(Hr & Hsp & _)|[-> _]].
  - rewrite IH in Hr. rewrite Hc in Hsp; done.
  - by rewrite IH.
Qed.

Lemma py_lstrip_cases s :
  lstrip s = EmptyString
  ∨ ∃ c s', lstrip s = String c s' ∧ isspace c = false.
Proof.
  induction s as [|c s IH]; simpl; [by left|].
  destruct (isspace c) eqn:Hc; [done|]. right. by exists c, s.
Qed.

Lemma py_strip_cases s :
  strip s = EmptyString
  ∨ ∃ c s', strip s = String c (rstrip s') ∧ isspace c = false.
Proof.
  unfold py_strip. destruct (py_lstrip_cases s) as [->|(c & s' & -> & Hc)];
    [by left|].
  right. exists c, s'. split; [|done].
  destruct (py_rstrip_cons c s') as [(_ & Hsp & _)|[-> _]]; [|done].
  by rewrite Hc in Hsp.
Qed.

(** Stripping twice is stripping once: a stripped string neither starts
    nor ends with whitespace. *)
Lemma py_strip_idemp s : strip (strip s) = strip s.
Proof.
  destruct (py_strip_cases s) as [->|(c & s' & -> & Hc)]; [done|].
  unfold py_strip. simpl. rewrite Hc.
  destruct (py_rstrip_cons c (rstrip s')) as [(_ & Hsp & _)|[-> _]].
  - by rewrite Hc in Hsp.
  - by rewrite py_rstrip_idemp.
Qed.
End TextFacts.

(** ** The graph [read_network] builds *)

(** A graph is its nodes and its edges. *)
Lemma graph_ext G1 G2 :
  (∀ n, n ∈ nodes G1 ↔ n ∈ nodes G2) →
  (∀ u v, edge G1 u v ↔ edge G2 u v) →
  G1 = G2.
Proof.
  destruct G1 as [a1], G2 as [a2]. unfold nodes, edge, nx_neighbors. simpl.
  intros Hn He. f_equal. apply map_eq. intros n.
  specialize (Hn n). rewrite !elem_of_dom in Hn.
  destruct (a1 !! n) as [S1|] eqn:H1, (a2 !! n) as [S2|] eqn:H2.
  - f_equal. apply set_eq. intros v. specialize (He n v).
    by rewrite H1, H2 in He.
  - destruct Hn as [Hn _]. by destruct Hn.
  - destruct Hn as [_ Hn]. by destruct Hn.
  - done.
Qed.

Lemma no_isolated_add_edge u v G :
  no_isolated G → no_isolated (add_edge u v G).
Proof.
  intros Hiso n. rewrite nodes_add_edge. intros Hn Hemp.
  assert (∀ x, x ∉ nx_neighbors (add_edge u v G) n) as Hno
    by (rewrite Hemp; set_solver).
  setoid_rewrite nx_neighbors_add_edge in Hno.
  destruct (decide (n = u)) as [->|Hu]; [by apply (Hno v); auto|].
  destruct (decide (n = v)) as [->|Hv]; [by apply (Hno u); auto|].
  assert (n ∈ nodes G) as HnG by set_solver.
  apply (Hiso n HnG). apply set_eq. intros x. split; [|set_solver].
  intros Hx. destruct (Hno x). auto.
Qed.

Section NetworkFacts.
Variable isspace : ascii → bool.
Variable py_lower : string → string.
Variable score : Type.
Variable py_float : string → option score.
Variable ge_threshold : score → bool.

Local Abbreviation row_step :=
  (read_network_row isspace py_lower score py_float ge_threshold).
Local Abbreviation network :=
  (read_network isspace py_lower score py_float ge_threshold).

(** A row either changes nothing or adds one edge between two stripped
    strings, the same whatever the graph so far. *)
Lemma read_network_row_cases row :
  (∀ G, row_step G row = G)
  ∨ ∃ u v, py_strip isspace u = u ∧ py_strip isspace v = v
           ∧ ∀ G, row_step G row = add_edge u v G.
Proof.
  unfold read_network_row.
  destruct row as [|c1 [|c2 rest]]; csimpl; [by left..|].
  destruct (_ || _); [by left|].
  assert (∃ u v, py_strip isspace u = u ∧ py_strip isspace v = v
            ∧ ∀ G : Graph, add_edge (py_strip isspace c1)
                              (py_strip isspace c2) G = add_edge u v G) as Hadd.
  { exists (py_strip isspace c1), (py_strip isspace c2).
    by rewrite !py_strip_idemp. }
  destruct rest as [|c3 rest]; csimpl; [by right|].
  destruct (py_float _) as [sc|]; [|by right].
  destruct (ge_threshold sc); [by right|by left].
Qed.

Lemma read_network_row_nodes G row n :
  n ∈ nodes (row_step G row)
  ↔ n ∈ nodes G ∨ n ∈ nodes (row_step empty_graph row).
Proof.
  destruct (read_network_row_cases row) as [Hid|(u & v & _ & _ & Hadd)].
  - rewrite !Hid. unfold nodes at 3. simpl. set_solver.
  - rewrite !Hadd, !nodes_add_edge. unfold nodes at 3. simpl. set_solver.
Qed.

Lemma read_network_row_edge G row a b :
  edge (row_step G row) a b
  ↔ edge G a b ∨ edge (row_step empty_graph row) a b.
Proof.
  unfold edge.
  destruct (read_network_row_cases row) as [Hid|(u & v & _ & _ & Hadd)].
  - rewrite !Hid, nx_neighbors_empty. set_solver.
  - rewrite !Hadd, !nx_neighbors_add_edge, nx_neighbors_empty. set_solver.
Qed.

Lemma read_network_fold rows : ∀ G,
  (∀ n, n ∈ nodes (foldl row_step G rows)
        ↔ n ∈ nodes G
          ∨ ∃ row, row ∈ rows ∧ n ∈ nodes (row_step empty_graph row))
  ∧ (∀ a b, edge (foldl row_step G rows) a b
            ↔ edge G a b
              ∨ ∃ row, row ∈ rows ∧ edge (row_step empty_graph row) a b).
Proof.
  induction rows as [|row rows IH]; intros G; simpl.
  - split; intros; set_solver.
  - destruct (IH (row_step G row)) as [IHn IHe]. split.
    + intros n. rewrite IHn, read_network_row_nodes. set_solver.
    + intros a b. rewrite IHe, read_network_row_edge. set_solver.
Qed.

(** X8: the rows contribute independently: the nodes and the edges of the graph
    are those of the one-row graphs. *)
Theorem read_network_rows_independent rows :
  (∀ n, n ∈ nodes (network rows)
        ↔ ∃ row, row ∈ rows ∧ n ∈ nodes (row_step empty_graph row))
  ∧ (∀ a b, edge (network rows) a b
            ↔ ∃ row, row ∈ rows ∧ edge (row_step empty_graph row) a b).
Proof.
  destruct (read_network_fold rows empty_graph) as [Hn He].
  unfold read_network. split.
  - intros n. rewrite Hn. unfold nodes at 1. simpl. set_solver.
  - intros a b. rewrite He. unfold edge at 1. rewrite nx_neighbors_empty.
    set_solver.
Qed.

(** X9: two files with the same rows, in any order and any number of times,
    give the same graph. *)
Theorem read_network_same_rows rows rows' :
  (∀ row, row ∈ rows ↔ row ∈ rows') →
  read_network isspace py_lower score py_float ge_threshold rows
  = read_network isspace py_lower score py_float ge_threshold rows'.
Proof.
  intros Hrows.
  destruct (read_network_fold rows empty_graph) as [Hn He].
  destruct (read_network_fold rows' empty_graph) as [Hn' He'].
  apply graph_ext.
  - intros n. unfold read_network. rewrite Hn, Hn'. set_solver.
  - intros a b. unfold read_network. rewrite He, He'. set_solver.
Qed.

(** What the loop keeps, row after row. *)
Lemma read_network_fold_inv (P : Graph → Prop) rows :
  (∀ u v G, py_strip isspace u = u → py_strip isspace v = v →
            P G → P (add_edge u v G)) →
  ∀ G, P G → P (foldl row_step G rows).
Proof.
  intros Hadd. induction rows as [|row rows IH]; intros G HG; simpl; [done|].
  apply IH.
  destruct (read_network_row_cases row) as [->|(u & v & Hu & Hv & ->)];
    [done|by apply Hadd].
Qed.

(** X10: the graph is well formed: neighbours are nodes and adjacency is
    symmetric. *)
Theorem read_network_wf rows : graph_wf (network rows).
Proof.
  apply (read_network_fold_inv graph_wf); [|apply graph_wf_empty].
  intros u v G _ _. apply graph_wf_add_edge.
Qed.

Lemma read_network_no_isolated rows : no_isolated (network rows).
Proof.
  apply (read_network_fold_inv no_isolated).
  - intros u v G _ _. apply no_isolated_add_edge.
  - intros n. unfold nodes. simpl. set_solver.
Qed.

(** X11: no node of the graph is isolated, so on a graph that [read_network]
    built the loop of [diamond] never skips a candidate for its degree:
    every node gets a p-value. *)
Theorem read_network_every_node_scored sf alpha cluster rows n :
  n ∈ nodes (network rows) →
  0 < nx_degree (network rows) n
  ∧ is_Some (score_candidate sf (network rows) alpha cluster n).
Proof.
  intros Hn. pose proof (read_network_no_isolated rows n Hn) as Hiso.
  assert (0 < nx_degree (network rows) n) as Hk.
  { unfold nx_degree.
    assert (0 < size (nx_neighbors (network rows) n))%nat.
    { destruct (size _) eqn:Hs; [|lia].
      destruct Hiso. apply leibniz_equiv. by apply size_empty_inv. }
    case_decide; lia. }
  split; [done|]. unfold score_candidate.
  rewrite (degrees_lookup _ _ Hn). simpl.
  destruct (Z.eqb_spec (nx_degree (network rows) n) 0); [lia|done].
Qed.

(** X12: node names are stripped cells: none starts or ends with whitespace. *)
Theorem read_network_nodes_stripped rows n :
  n ∈ nodes (network rows) → py_strip isspace n = n.
Proof.
  revert n.
  apply (read_network_fold_inv (λ G, ∀ n, n ∈ nodes G → py_strip isspace n = n)).
  - intros u v G Hu Hv HG n. rewrite nodes_add_edge.
    intros [[->%elem_of_singleton| ->%elem_of_singleton]%elem_of_union|Hn]%elem_of_union;
      auto.
  - intros n. unfold nodes. simpl. set_solver.
Qed.

(** X13: rows with twice the same name are not filtered: the graph is free of
    self-loops exactly when every one-row graph is, and a two-cell row that
    is not a header gives a self-loop exactly when its stripped cells are
    equal. *)
Theorem read_network_loop_free_iff rows :
  (loop_free (network rows)
   ↔ ∀ row, row ∈ rows → loop_free (row_step empty_graph row))
  ∧ (∀ a b,
       py_lower (py_strip isspace a) ∉ header_first →
       py_lower (py_strip isspace b) ∉ header_second →
       (loop_free (row_step empty_graph [a; b])
        ↔ py_strip isspace a ≠ py_strip isspace b)).
Proof.
  split.
  - destruct (read_network_fold rows empty_graph) as [_ He].
    unfold read_network, loop_free. setoid_rewrite He. unfold edge.
    setoid_rewrite nx_neighbors_empty. set_solver.
  - intros a b Ha Hb. unfold read_network_row. csimpl.
    rewrite !bool_decide_eq_false_2 by done. simpl.
    unfold loop_free. setoid_rewrite nx_neighbors_add_edge.
    setoid_rewrite nx_neighbors_empty. split.
    + intros Hlf Heq. apply (Hlf (py_strip isspace a)). rewrite <- Heq. auto.
    + intros Hne u [?|[[-> ?]|[-> ?]]]; [set_solver|done..].
Qed.
End NetworkFacts.

(** ** Splitting, and the seeds [read_seeds] returns *)

Section SplitFacts.
Variable P : ascii → bool.

Local Abbreviation go := (py_split_go P).

Lemma str_app_nil_l t : EmptyString +:+ t = t.
Proof. done. Qed.

Lemma str_app_cons c s t : String c s +:+ t = String c (s +:+ t).
Proof. done. Qed.



Lemma str_all_app R s t : str_all R (s +:+ t) = str_all R s && str_all R t.
Proof.
  induction s as [|c s IH]; [done|].
  rewrite str_app_cons. simpl. by rewrite IH, andb_assoc.
Qed.

(** One step of the scan depends on the rest only through the scan of the
    rest. *)
Lemma py_split_go_cons_ext c t t' :
  (∀ cur, go cur t = go cur t') →
  ∀ cur, go cur (String c t) = go cur (String c t').
Proof. intros Heq cur. simpl. by rewrite !Heq. Qed.

(** A separator ends the current run. *)
Lemma py_split_go_app_sep c s1 s2 : P c = true →
  ∀ cur, go cur (s1 +:+ String c s2) = go cur s1 ++ go EmptyString s2.
Proof.
  intros Hc. induction s1 as [|d s1 IH]; intros cur.
  - rewrite str_app_nil_l. simpl. rewrite Hc. by destruct cur.
  - rewrite str_app_cons. simpl. destruct (P d); [|by rewrite IH].
    destruct cur; by rewrite IH.
Qed.


(** The runs are non-empty and free of separators. *)
Lemma py_split_go_tokens s : ∀ cur t,
  str_all (λ c, negb (P c)) cur = true →
  t ∈ go cur s →
  t ≠ EmptyString ∧ str_all (λ c, negb (P c)) t = true.
Proof.
  induction s as [|c s IH]; intros cur t Hcur; simpl.
  - destruct cur; [by intros ?%elem_of_nil|].
    by intros ->%list_elem_of_singleton.
  - destruct (P c) eqn:Hc.
    + destruct cur.
      * by apply IH.
      * intros [->|Ht]%elem_of_cons; [done|]. by apply (IH EmptyString).
    + apply IH. rewrite str_all_app, Hcur. simpl. by rewrite Hc.
Qed.

(** Stripping characters that are separators anyway changes no run. *)
Lemma py_split_go_lstrip Q s :
  (∀ c, Q c = true → P c = true) →
  go EmptyString (py_lstrip Q s) = go EmptyString s.
Proof.
  intros HQ. induction s as [|c s IH]; simpl; [done|].
  destruct (Q c) eqn:Hc; [|done]. by rewrite (HQ c Hc).
Qed.

Lemma py_split_go_rstrip Q s :
  (∀ c, Q c = true → P c = true) →
  ∀ cur, go cur (py_rstrip Q s) = go cur s.
Proof.
  intros HQ. induction s as [|c s IH]; [done|].
  destruct (py_rstrip_cons Q c s) as [(Hr & Hc & ->)|[-> _]].
  - intros cur. simpl. rewrite (HQ c Hc).
    rewrite <- !IH, Hr. by destruct cur.
  - by apply py_split_go_cons_ext.
Qed.

Lemma py_split_strip Q s :
  (∀ c, Q c = true → P c = true) →
  py_split P (py_strip Q s) = py_split P s.
Proof.
  intros HQ. unfold py_split, py_strip.
  by rewrite py_split_go_rstrip, py_split_go_lstrip.
Qed.

(** A non-empty string free of [P] is left alone by [strip]. *)
Lemma py_strip_word t :
  str_all (λ c, negb (P c)) t = true → py_strip P t = t.
Proof.
  intros Ht. unfold py_strip.
  assert (py_lstrip P t = t) as ->.
  { destruct t as [|c t]; simpl in *; [done|].
    apply andb_true_iff in Ht as [Hc _]. apply negb_true_iff in Hc.
    by rewrite Hc. }
  induction t as [|c t IH]; [done|]. simpl in Ht.
  apply andb_true_iff in Ht as [Hc Ht]. apply negb_true_iff in Hc.
  simpl. rewrite IH, Hc by done. by destruct t.
Qed.
End SplitFacts.

Section SeedFacts.
Variable isspace : ascii → bool.
(** A line feed is whitespace. *)
Hypothesis isspace_newline : isspace "010"%char = true.

Local Abbreviation sep := (is_sep isspace).
Local Abbreviation tokens := (py_split (is_sep isspace)).

Lemma str_all_ext R R' s :
  (∀ c, R c = R' c) → str_all R s = str_all R' s.
Proof. intros Heq. induction s as [|c s IH]; simpl; [done|]. by rewrite Heq, IH. Qed.

Lemma is_token_sep t :
  is_token isspace t
  ↔ t ≠ EmptyString ∧ str_all (λ c, negb (sep c)) t = true.
Proof.
  unfold is_token, is_sep.
  rewrite (str_all_ext _ (λ c, negb (isspace c || Ascii.eqb c ","%char))); [done|].
  intros c. by rewrite negb_orb.
Qed.

Lemma sep_isspace c : isspace c = true → sep c = true.
Proof. unfold is_sep. by intros ->. Qed.

(** After commas became line feeds, splitting at whitespace is splitting at
    whitespace and commas. *)
Lemma py_split_go_replace s : ∀ cur,
  py_split_go isspace cur (py_replace ","%char "010"%char s)
  = py_split_go sep cur s.
Proof.
  induction s as [|c s IH]; intros cur; simpl; [done|]. unfold is_sep at 1.
  destruct (Ascii.eqb c ","%char) eqn:Hc.
  - rewrite isspace_newline, orb_true_r. by rewrite !IH.
  - rewrite orb_false_r. by rewrite !IH.
Qed.

Lemma str_all_impl R R' s :
  (∀ c, R c = true → R' c = true) →
  str_all R s = true → str_all R' s = true.
Proof.
  intros Himp. induction s as [|c s IH]; simpl; [done|].
  rewrite !andb_true_iff. intros [? ?]. auto.
Qed.

(** The runs between separators: non-empty, free of whitespace and commas,
    and left alone by [strip]. *)
Lemma tokens_spec line t :
  t ∈ tokens line → is_token isspace t ∧ py_strip isspace t = t.
Proof.
  intros Ht. apply py_split_go_tokens in Ht as [Hne Hall]; [|done].
  split; [by apply is_token_sep|]. apply py_strip_word.
  revert Hall. apply str_all_impl. intros c. unfold is_sep.
  by destruct (isspace c).
Qed.

Lemma foldl_add_seeds (parts : list string) : ∀ S : gset string,
  Forall (λ p, p ≠ EmptyString) parts →
  foldl (λ seeds p, match p with
                    | EmptyString => seeds
                    | _ => {[p]} ∪ seeds
                    end) S parts
  = S ∪ list_to_set parts.
Proof.
  induction parts as [|p parts IH]; intros S Hne; simpl; [set_solver|].
  apply Forall_cons in Hne as [Hp Hne]. rewrite IH by done.
  destruct p; [done|]. set_solver.
Qed.

(** One line adds its tokens to the set. *)
Lemma read_seeds_line_tokens S line :
  read_seeds_line isspace S line = S ∪ list_to_set (tokens line).
Proof.
  unfold read_seeds_line.
  assert (tokens (py_strip isspace line) = tokens line) as Hstrip
    by (apply py_split_strip, sep_isspace).
  destruct (py_strip isspace line) as [|c l] eqn:Hline.
  - rewrite <- Hstrip. set_solver.
  - change (py_split isspace ?x) with (py_split_go isspace EmptyString x).
    rewrite py_split_go_replace.
    change (py_split_go sep EmptyString ?x) with (tokens x). rewrite Hstrip.
    assert (py_strip isspace <$> tokens line = tokens line) as ->.
    { rewrite <- (list_fmap_id (tokens line)) at 2.
      apply list_fmap_ext. intros i t Ht%list_elem_of_lookup_2.
      by apply tokens_spec in Ht as [_ ->]. }
    apply foldl_add_seeds, Forall_forall.
    intros t Ht. apply tokens_spec in Ht as [[? _] _]. done.
Qed.

Lemma read_seeds_fold lines : ∀ S,
  foldl (read_seeds_line isspace) S lines
  = S ∪ list_to_set (mjoin (tokens <$> lines)).
Proof.
  induction lines as [|line lines IH]; intros S; csimpl; [set_solver|].
  rewrite IH, read_seeds_line_tokens, list_to_set_app_L. set_solver.
Qed.

Lemma list_to_set_empty_inv (l : list string) :
  list_to_set l = (∅ : gset string) → l = [].
Proof. destruct l as [|x l]; [done|]. set_solver. Qed.

(** X15: the seeds of a file are its tokens, the maximal runs of characters that
    are neither whitespace nor commas; a file without tokens gives the
    default seeds. *)
Theorem read_seeds_tokens lines :
  read_seeds isspace (Some lines)
  = match mjoin (tokens <$> lines) with
    | [] => default_seeds
    | toks => list_to_set toks
    end.
Proof.
  unfold read_seeds. rewrite read_seeds_fold, union_empty_l_L.
  destruct (mjoin (tokens <$> lines)) as [|t toks] eqn:Htoks.
  - by rewrite decide_True.
  - rewrite decide_False; [done|]. set_solver.
Qed.

Lemma elem_of_tokens_join lines t :
  t ∈ mjoin (tokens <$> lines) → ∃ line, line ∈ lines ∧ t ∈ tokens line.
Proof.
  induction lines as [|line lines IH]; csimpl; [by intros ?%elem_of_nil|].
  intros [Ht|Ht]%elem_of_app; [exists line; set_solver|].
  destruct (IH Ht) as (l & ? & ?). exists l. set_solver.
Qed.

(** X16: the result is never empty, and each seed is a default seed or a
    non-empty string without whitespace and without commas. *)
Theorem read_seeds_clean file :
  read_seeds isspace file ≠ ∅
  ∧ ∀ s, s ∈ read_seeds isspace file →
         s ∈ default_seeds ∨ is_token isspace s.
Proof.
  destruct file as [lines|]; [|split; [done|by left]].
  unfold read_seeds. rewrite read_seeds_fold, union_empty_l_L.
  case_decide as Hemp; [split; [done|by left]|]. split; [done|].
  intros s Hs%elem_of_list_to_set. right.
  apply elem_of_tokens_join in Hs as (line & _ & Hs).
  by apply tokens_spec in Hs as [? _].
Qed.

(** X17: separating two seeds by a comma or putting them on two lines is the
    same. *)
Theorem read_seeds_comma_is_newline pre l1 l2 post :
  read_seeds isspace
    (Some (pre ++ [l1 +:+ String ","%char l2] ++ post))
  = read_seeds isspace (Some (pre ++ [l1; l2] ++ post)).
Proof.
  unfold read_seeds. rewrite !read_seeds_fold.
  assert (tokens (l1 +:+ String ","%char l2) = tokens l1 ++ tokens l2) as Hsplit.
  { apply py_split_go_app_sep. unfold is_sep. by rewrite orb_true_r. }
  rewrite !fmap_app. csimpl. rewrite Hsplit, !join_app. csimpl.
  by rewrite <- (app_assoc (tokens l1)).
Qed.

End SeedFacts.

(** ** The reader without a delimiter *)

Section SplitReaderFacts.
Variable isspace : ascii → bool.
Variable py_lower : string → string.
Variable score : Type.
Variable py_float : string → option score.
Variable ge_threshold : score → bool.

Lemma read_network_row_node_cell row n :
  n ∈ nodes (read_network_row isspace py_lower score py_float ge_threshold
               empty_graph row) →
  ∃ c, c ∈ row ∧ n = py_strip isspace c.
Proof.
  unfold read_network_row.
  destruct row as [|c1 [|c2 rest]]; csimpl; [set_solver..|].
  assert (n ∈ nodes (add_edge (py_strip isspace c1) (py_strip isspace c2)
                       empty_graph) →
          ∃ c, c ∈ c1 :: c2 :: rest ∧ n = py_strip isspace c) as Hadd.
  { rewrite nodes_add_edge. unfold nodes at 1. simpl.
    intros [[->%elem_of_singleton| ->%elem_of_singleton]%elem_of_union|?]%elem_of_union;
      [exists c1|exists c2|]; set_solver. }
  destruct (_ || _); [set_solver|].
  destruct rest as [|c3 rest]; csimpl; [done|].
  destruct (py_float (py_strip isspace c3)) as [sc|]; [|done].
  destruct (ge_threshold sc); [done|set_solver].
Qed.

(** X14: when the lines are split at whitespace (no delimiter was found), every
    node name is non-empty and free of whitespace. *)
Theorem split_reader_nodes lines n :
  n ∈ nodes (read_network isspace py_lower score py_float ge_threshold
               (split_reader isspace lines)) →
  n ≠ EmptyString ∧ str_all (λ c, negb (isspace c)) n = true.
Proof.
  intros Hn.
  apply (proj1 (read_network_fold isspace py_lower score py_float
                  ge_threshold _ empty_graph)) in Hn
    as [Hn|(row & Hrow & Hn)]; [set_solver|].
  apply read_network_row_node_cell in Hn as (c & Hc & ->).
  unfold split_reader in Hrow.
  apply list_elem_of_fmap in Hrow as (line & -> & _).
  apply py_split_go_tokens in Hc as [Hne Hall]; [|done].
  by rewrite py_strip_word.
Qed.
End SplitReaderFacts.

(** * The further properties at concrete inputs *)

Lemma added_nodes_are_new_witness : "B" ∈ nodes path4 ∧ "B" ∉ ({["A"]} : gset string).
Proof.
  apply (added_nodes_are_new hypergeom_sf enum_elements path4 1 1 true
           (Z.to_nat 1) {["A"]} _ "B" path4_run).
  simpl. set_solver.
Defined.

Lemma exit_reason_and_length_witness :
  Z.of_nat (length ["B"]) = Z.max 0 1.
Proof.
  apply (proj1 (proj2 (exit_reason_and_length hypergeom_sf enum_elements
                         path4 1 1 true (Z.to_nat 1) {["A"]} _ path4_run))).
  done.
Defined.

Lemma log_records_added_witness :
  omap added_node [InfoNetwork 4 1; MsgAdded "B" (PVal (18 # 36)) 1 1] = ["B"].
Proof.
  apply (proj1 (log_records_added hypergeom_sf enum_elements path4 1 1
                  (Z.to_nat 1) {["A"]} _ path4_run)).
Defined.

Lemma admitted_pvalue_in_unit_interval_witness :
  ∃ q, PVal (18 # 36) = PVal q ∧ (0 <= q)%Q ∧ (q < 1)%Q.
Proof.
  apply (admitted_pvalue_in_unit_interval enum_elements path4 1 {["A"]} "B").
  vm_compute. reflexivity.
Defined.

Example path4_saturated_run :
  diamond_fuel hypergeom_sf enum_elements path4 3 4 true 3 {["A"]}
  = Some (MkResult [] [InfoNetwork 4 1; MsgNoNodeSelected]
            NoScorableCandidate).
Proof. vm_compute. reflexivity. Qed.

Lemma saturated_alpha_adds_nothing_witness :
  r_added (MkResult [] [InfoNetwork 4 1; MsgNoNodeSelected]
             NoScorableCandidate) = [].
Proof.
  apply (saturated_alpha_adds_nothing enum_elements path4 3 4 true 3 {["A"]}).
  - vm_compute. discriminate.
  - apply path4_saturated_run.
Defined.

Lemma added_nodes_attached_to_seeds_witness :
  ∃ s, s ∈ ({["A"]} : gset string) ∧ s ∈ nodes path4 ∧ rtc (edge path4) "B" s.
Proof.
  apply (added_nodes_attached_to_seeds enum_elements path4 1 1 true
           (Z.to_nat 1) {["A"]} _ "B" path4_run).
  simpl. set_solver.
Defined.

Lemma read_network_same_rows_witness :
  read_network py_isspace ascii_lower Z digits_float (Z.leb 400)
    [["A"; "B"; "900"]; ["B"; "C"]]
  = read_network py_isspace ascii_lower Z digits_float (Z.leb 400)
      [["B"; "C"]; ["A"; "B"; "900"]; ["B"; "C"]].
Proof.
  apply read_network_same_rows. intros row. set_solver.
Defined.

Lemma read_network_every_node_scored_witness :
  0 < nx_degree (read_network py_isspace ascii_lower Z digits_float
                   (Z.leb 400) [["A"; "B"; "900"]; ["B"; "C"]]) "C"
  ∧ is_Some (score_candidate hypergeom_sf
               (read_network py_isspace ascii_lower Z digits_float
                  (Z.leb 400) [["A"; "B"; "900"]; ["B"; "C"]])
               1 {["A"]} "C").
Proof.
  apply read_network_every_node_scored. by_compute.
Defined.

Lemma read_network_nodes_stripped_witness :
  py_strip py_isspace "B" = "B".
Proof.
  apply (read_network_nodes_stripped py_isspace ascii_lower Z digits_float
           (Z.leb 400) [["A"; " B "; "900"]; ["B"; "C"]]).
  by_compute.
Defined.

Lemma split_reader_nodes_witness :
  "B" ≠ EmptyString ∧ str_all (λ c, negb (py_isspace c)) "B" = true.
Proof.
  apply (split_reader_nodes py_isspace ascii_lower Z digits_float (Z.leb 400)
           ["A  B"; "B C 900"]).
  by_compute.
Defined.

Lemma read_seeds_tokens_witness :
  read_seeds py_isspace (Some ["ENO1, PGK1"; ""; " HK2 "])
  = match mjoin (py_split (is_sep py_isspace)
                   <$> ["ENO1, PGK1"; ""; " HK2 "]) with
    | [] => default_seeds
    | toks => list_to_set toks
    end.
Proof. apply read_seeds_tokens. reflexivity. Defined.

Lemma read_seeds_clean_witness :
  read_seeds py_isspace (Some ["X1, X2"]) ≠ ∅
  ∧ ∀ s, s ∈ read_seeds py_isspace (Some ["X1, X2"]) →
         s ∈ default_seeds ∨ is_token py_isspace s.
Proof. apply read_seeds_clean. reflexivity. Defined.

Lemma read_seeds_comma_is_newline_witness :
  read_seeds py_isspace (Some (["A"] ++ ["B" +:+ String ","%char "C"] ++ []))
  = read_seeds py_isspace (Some (["A"] ++ ["B"; "C"] ++ [])).
Proof. apply read_seeds_comma_is_newline. reflexivity. Defined.



(** * The p-value of a candidate, in doubles *)

Lemma hypergeom_sf_exact_inner x M n N :
  hypergeom_sf x M n N = hypergeom_sf_rounded exact_inner x M n N.
Proof. done. Qed.



Section RoundedScorer.
Variable inner : Z → Z → Z → Z → Q.
Variable G : Graph.
Variable alpha : Z.



End RoundedScorer.


